(** * opengl-sandbox: the fixed-timestep update/render loop of [src/main.cpp]

    A shallow embedding of [Scene], [Update], [Draw] and [GameLoop], with the
    C++ [float] and [double] arithmetic modelled bit-exactly by the IEEE 754
    specification of the Standard Library ([SpecFloat]): binary32 is
    [prec = 24], [emax = 128]; binary64 is [prec = 53], [emax = 1024]. *)

From Stdlib Require Import ZArith Lia List Bool Reals Lra.
From Stdlib Require Import Floats.SpecFloat.
From Stdlib Require String Ascii DecimalString.
Import ListNotations.
Import String.StringSyntax.
Delimit Scope string_scope with string.
Open Scope Z_scope.

(** ** IEEE 754 arithmetic as the compiled program uses it *)

Module IEEE.

Definition prec32 : Z := 24.
Definition emax32 : Z := 128.
Definition prec64 : Z := 53.
Definition emax64 : Z := 1024.

(** [double] operators of the C++ source: [+], [-], [*], [/] and [a > b]. *)
Definition dadd : spec_float -> spec_float -> spec_float := SFadd prec64 emax64.
Definition dsub : spec_float -> spec_float -> spec_float := SFsub prec64 emax64.
Definition dmul : spec_float -> spec_float -> spec_float := SFmul prec64 emax64.
Definition ddiv : spec_float -> spec_float -> spec_float := SFdiv prec64 emax64.
Definition dgt (a b : spec_float) : bool := SFltb b a.

(** The implicit conversions. [float -> double] is the promotion of a
    [float] operand in a [double] expression (exact); [double -> float] is
    the rounding done when a [double] result is stored into a [float]. *)
Definition double_of_float (x : spec_float) : spec_float :=
  match x with
  | S754_finite s m e => binary_round prec64 emax64 s m e
  | _ => x
  end.

Definition float_of_double (x : spec_float) : spec_float :=
  match x with
  | S754_finite s m e => binary_round prec32 emax32 s m e
  | _ => x
  end.

(** [Uint64 -> double], for the performance counter and its frequency. *)
Definition double_of_uint64 (n : Z) : spec_float :=
  binary_normalize prec64 emax64 n 0 false.

Definition pzero : spec_float := S754_zero false.
Definition d_one : spec_float := S754_finite false 4503599627370496 (-52).
Definition d_two : spec_float := S754_finite false 4503599627370496 (-51).
Definition d_sixty : spec_float := S754_finite false 8444249301319680 (-47).

(** [M_PI] of <math.h>, 3.14159265358979323846, as the nearest binary64
    value 0x1.921fb54442d18p+1. *)
Definition M_PI : spec_float := S754_finite false 7074237752028440 (-51).

End IEEE.

Import IEEE.

(** ** The platform (SDL): events and the performance counter *)

Module SDL.

(** The three constants of the SDL2 headers that [Update] switches on. *)
Definition SDL_QUIT : Z := 256.      (* 0x100 *)
Definition SDL_KEYDOWN : Z := 768.   (* 0x300 *)
Definition SDLK_q : Z := 113.        (* 'q' *)

(** [SDL_Event], as far as [Update] reads it: [event.type] and
    [event.key.keysym.sym]. *)
Record SDL_Event : Type := mkEvent {
  ev_type : Z;
  key_sym : Z
}.

(** [SDL_PollEvent]: pops the oldest pending event; [None] is the C result 0. *)
Definition SDL_PollEvent (pending : list SDL_Event)
  : option (SDL_Event * list SDL_Event) :=
  match pending with
  | [] => None
  | event :: rest => Some (event, rest)
  end.

End SDL.

Import SDL.

(** ** Scene *)

Record Scene : Type := mkScene {
  isRunning : bool;
  program : Z;
  vertexArray : Z;
  vertexCount : Z;
  angleShaderParameter : Z;
  angle : spec_float
}.

Definition set_isRunning (scene : Scene) (b : bool) : Scene :=
  mkScene b (program scene) (vertexArray scene) (vertexCount scene)
          (angleShaderParameter scene) (angle scene).

Definition set_angle (scene : Scene) (a : spec_float) : Scene :=
  mkScene (isRunning scene) (program scene) (vertexArray scene)
          (vertexCount scene) (angleShaderParameter scene) a.

(** [sizeof(vertices)] for an array of [N] elements of [sizeofT] bytes. *)
Definition sizeof_array (N : Z) (sizeofT : positive) : Z := N * Z.pos sizeofT.

(** The constructor [Scene::Scene]. [size_t] division by zero is undefined
    behaviour in C++: that case is [None]. Nothing else is checked. *)
Definition Scene_ctor (shaderProgram vertexArray' : Z) (N : Z)
    (sizeofT : positive) (vertexSize : Z) (angleParameter : Z) : option Scene :=
  if vertexSize =? 0 then None
  else Some (mkScene true shaderProgram vertexArray'
               (sizeof_array N sizeofT / Z.pos sizeofT / vertexSize)
               angleParameter pzero).

(** ** Update *)

Definition two_pi : spec_float := dmul d_two M_PI.

(** The body of the [switch] for one polled event. *)
Definition handle_event (scene : Scene) (event : SDL_Event) : Scene :=
  if ev_type event =? SDL_QUIT then set_isRunning scene false
  else if ev_type event =? SDL_KEYDOWN then
    if key_sym event =? SDLK_q then set_isRunning scene false else scene
  else scene.

(** [while (SDL_PollEvent(&event)) { switch ... }]: runs until the queue is
    empty and returns the scene with what is left of the queue. *)
Fixpoint poll_events (scene : Scene) (pending : list SDL_Event)
  : Scene * list SDL_Event :=
  match pending with
  | [] => (scene, [])
  | event :: rest => poll_events (handle_event scene event) rest
  end.

(** [scene->angle += 1.0 * dt; if (scene->angle > 2 * M_PI) scene->angle -= 2 * M_PI;]
    [angle] is a [float]: both compound assignments compute in [double] and
    round the result to [float]. *)
Definition add_angle (a dt : spec_float) : spec_float :=
  float_of_double (dadd (double_of_float a) (dmul d_one dt)).

Definition wraps (a1 : spec_float) : bool := dgt (double_of_float a1) two_pi.

Definition wrap_angle (a1 : spec_float) : spec_float :=
  if wraps a1 then float_of_double (dsub (double_of_float a1) two_pi) else a1.

Definition Update (scene : Scene) (pending : list SDL_Event)
    (secondsSinceLastUpdate : spec_float) : Scene * list SDL_Event :=
  let (scene1, pending1) := poll_events scene pending in
  (set_angle scene1 (wrap_angle (add_angle (angle scene1) secondsSinceLastUpdate)),
   pending1).

(** ** Draw *)

Inductive GLCommand : Type :=
| glClearColor
| glClear
| glUseProgram (prog : Z)
| glUniform1f (location : Z) (v : spec_float)
| glBindVertexArray (array : Z)
| glDrawArrays_TRIANGLE_STRIP (first count : Z)
| SDL_GL_SwapWindow.

(** [glDrawArrays] takes its count as a [GLsizei], a 32-bit signed [int]:
    the [size_t] [vertexCount] is converted at the call, modulo [2 ^ 32]. *)
Definition to_GLsizei (n : Z) : Z := (n + 2 ^ 31) mod 2 ^ 32 - 2 ^ 31.

Definition Draw (scene : Scene) : list GLCommand :=
  [ glClearColor; glClear;
    glUseProgram (program scene);
    glUniform1f (angleShaderParameter scene) (angle scene);
    glBindVertexArray (vertexArray scene);
    glDrawArrays_TRIANGLE_STRIP 0 (to_GLsizei (vertexCount scene));
    glBindVertexArray 0;
    glUseProgram 0;
    SDL_GL_SwapWindow ].

(** ** GameLoop *)

Inductive Call : Type :=
| CallUpdate (dt : spec_float)
| CallDraw (commands : list GLCommand).

(** What the platform does during one loop iteration: the value the
    iteration's [SDL_GetPerformanceCounter] returns and the events posted to
    the queue since the previous iteration. *)
Record Frame : Type := mkFrame {
  tick : Z;
  arrivals : list SDL_Event
}.

Record LoopState : Type := mkLoop {
  scene_of : Scene;
  previousTickCount : spec_float;
  accumulatedTime : spec_float;
  pending_of : list SDL_Event
}.

Definition secondsPerUpdate : spec_float := ddiv d_one d_sixty.

Definition elapsed (ticksPerSecond previous : spec_float) (f : Frame) : spec_float :=
  ddiv (dsub (double_of_uint64 (tick f)) previous) ticksPerSecond.

(** One pass through the body of [while (scene->isRunning)]. *)
Definition loop_body (ticksPerSecond : spec_float) (st : LoopState) (f : Frame)
  : LoopState * list Call :=
  let currentTickCount := double_of_uint64 (tick f) in
  let acc := dadd (accumulatedTime st)
                  (elapsed ticksPerSecond (previousTickCount st) f) in
  let pending := pending_of st ++ arrivals f in
  if dgt acc secondsPerUpdate then
    let (scene1, pending1) := Update (scene_of st) pending secondsPerUpdate in
    (mkLoop scene1 currentTickCount (dsub acc secondsPerUpdate) pending1,
     [CallUpdate secondsPerUpdate; CallDraw (Draw scene1)])
  else
    (mkLoop (scene_of st) currentTickCount acc pending,
     [CallDraw (Draw (scene_of st))]).

Inductive Outcome : Type :=
| Exited          (* [scene->isRunning] was false at the top of the loop *)
| StillRunning.   (* the script of frames ended with the loop still running *)

Record Run : Type := mkRun {
  outcome : Outcome;
  final : LoopState;
  iterations : list (list Call);   (* the calls of each iteration, in order *)
  unread : list Frame
}.

Fixpoint loop_from (ticksPerSecond : spec_float) (st : LoopState)
    (frames : list Frame) : Run :=
  if isRunning (scene_of st) then
    match frames with
    | [] => mkRun StillRunning st [] []
    | f :: rest =>
        let (st1, calls) := loop_body ticksPerSecond st f in
        let r := loop_from ticksPerSecond st1 rest in
        mkRun (outcome r) (final r) (calls :: iterations r) (unread r)
    end
  else mkRun Exited st [] frames.

(** [GameLoop]: [perfFrequency] is [SDL_GetPerformanceFrequency()], [tick0]
    the counter read before the loop. *)
Definition GameLoop (perfFrequency tick0 : Z) (frames : list Frame)
    (scene : Scene) : Run :=
  loop_from (double_of_uint64 perfFrequency)
            (mkLoop scene (double_of_uint64 tick0) pzero [])
            frames.

Definition is_update (c : Call) : bool :=
  match c with CallUpdate _ => true | CallDraw _ => false end.

Definition is_draw (c : Call) : bool :=
  match c with CallUpdate _ => false | CallDraw _ => true end.

Definition updates (calls : list Call) : nat := length (filter is_update calls).
Definition draws (calls : list Call) : nat := length (filter is_draw calls).

(** ** Definitions used to state and prove the properties *)

(** Number of binary digits of a mantissa. *)
Definition digits (m : positive) : Z := Zpos (digits2_pos m).

(** [x] lies in the [m]-th interval of width [2^k], at the place told by [l]:
    the meaning of the round and sticky bits of [shr]. *)
Definition inbetween (x k m : Z) (l : location) : Prop :=
  m * 2 ^ k <= x < (m + 1) * 2 ^ k /\
  match l with
  | loc_Exact => x = m * 2 ^ k
  | loc_Inexact Lt => m * 2 ^ k < x /\ 2 * (x - m * 2 ^ k) < 2 ^ k
  | loc_Inexact Eq => 2 * (x - m * 2 ^ k) = 2 ^ k
  | loc_Inexact Gt => 2 ^ k < 2 * (x - m * 2 ^ k)
  end.

(** Real value of a mantissa and exponent, and of a float (0 when it is not
    finite). *)
Definition bpow (e : Z) : R := powerRZ 2 e.
Definition F2R (m e : Z) : R := (IZR m * bpow e)%R.

Definition SF2R (x : spec_float) : R :=
  match x with
  | S754_finite s m e => F2R (cond_Zopp s (Zpos m)) e
  | _ => 0%R
  end.

(** A well-formed, finite, non-negative float of the format. *)
Definition good (prec emax : Z) (x : spec_float) : Prop :=
  match x with
  | S754_zero _ => True
  | S754_finite false m e => bounded prec emax m e = true
  | _ => False
  end.

(** [n] calls of [Update] with the same [dt], the [i]-th call draining the
    [i]-th list of pending events. *)
Fixpoint Updates (scene : Scene) (pendings : list (list SDL_Event))
    (dt : spec_float) : Scene :=
  match pendings with
  | [] => scene
  | pending :: rest => Updates (fst (Update scene pending dt)) rest dt
  end.

(** The largest [float] below [2 * M_PI], 0x1.921fb4p+2, and 6.0, the bound
    taken on [dt] for the angle invariant. *)
Definition angle_max : spec_float := S754_finite false 13176794 (-21).
Definition dt_max : spec_float := S754_finite false 6755399441055744 (-50).

(** The invariant of [scene->angle]: a well-formed non-negative [float] not
    above [angle_max]. *)
Definition angle_inv (a : spec_float) : Prop :=
  good prec32 emax32 a /\ (SF2R a <= SF2R angle_max)%R.

(** The events on which [Update] clears [isRunning]. *)
Definition quit_event (event : SDL_Event) : bool :=
  (ev_type event =? SDL_QUIT)
  || ((ev_type event =? SDL_KEYDOWN) && (key_sym event =? SDLK_q)).

(** For each call of [Updates], whether the call took the wrap branch. *)
Fixpoint wrap_history (scene : Scene) (pendings : list (list SDL_Event))
    (dt : spec_float) : list bool :=
  match pendings with
  | [] => []
  | pending :: rest =>
      wraps (add_angle (angle scene) dt)
      :: wrap_history (fst (Update scene pending dt)) rest dt
  end.

(** The angle after [n] calls of [Update] from angle [a], and whether each
    of these calls wrapped; the events have no part in either. *)
Fixpoint angle_after (n : nat) (a dt : spec_float) : spec_float :=
  match n with
  | O => a
  | S k => angle_after k (wrap_angle (add_angle a dt)) dt
  end.

Fixpoint wraps_during (n : nat) (a dt : spec_float) : list bool :=
  match n with
  | O => []
  | S k => wraps (add_angle a dt)
           :: wraps_during k (wrap_angle (add_angle a dt)) dt
  end.

(** The clock advances by exactly [secondsPerUpdate] between consecutive
    reads: every elapsed time the loop computes is [secondsPerUpdate]. *)
Fixpoint steady_clock (ticksPerSecond previous : spec_float)
    (frames : list Frame) : Prop :=
  match frames with
  | [] => True
  | f :: rest =>
      elapsed ticksPerSecond previous f = secondsPerUpdate /\
      steady_clock ticksPerSecond (double_of_uint64 (tick f)) rest
  end.

(** Whether [Update] runs in the iteration that starts in state [st] and
    reads frame [f]. *)
Definition update_due (ticksPerSecond : spec_float) (st : LoopState)
    (f : Frame) : bool :=
  dgt (dadd (accumulatedTime st) (elapsed ticksPerSecond (previousTickCount st) f))
      secondsPerUpdate.

Definition total_draws (r : Run) : nat := draws (concat (iterations r)).
Definition total_updates (r : Run) : nat := updates (concat (iterations r)).

(** The scene that [main] builds: 8 floats of 4 bytes, 2 per vertex. *)
Definition main_scene (shaderProgram vertexArray' angleParameter : Z)
  : option Scene :=
  Scene_ctor shaderProgram vertexArray' 8 4 2 angleParameter.

(** Scripts for the examples: [n] frames whose counter advances by [step]
    ticks per iteration from 0, a quit request arriving in iteration [quit_at]
    (counted from 1). *)
Definition quit_request : SDL_Event := mkEvent SDL_QUIT 0.

Definition script (step : Z) (n quit_at : nat) : list Frame :=
  map (fun i => mkFrame (Z.of_nat i * step)
                        (if Nat.eqb i quit_at then [quit_request] else []))
      (seq 1 n).

Definition example_scene : Scene := mkScene true 1 1 4 0 pzero.

(** The calls of the fourth iteration of a loop run on a 60 Hz counter that
    advances by one tick per iteration. *)
Definition example_calls : list Call :=
  nth 3 (iterations (GameLoop 60 0 (script 1 10 0) example_scene)) [].

(** 100.0, a [dt] far above [2 * M_PI]. *)
Definition d_hundred : spec_float := double_of_uint64 100.

(** 1e-4 and 2e-4 are not binary fractions; tolerances are compared as real
    numbers. *)
Definition within (tolerance : R) (a : spec_float) : Prop :=
  (Rabs (SF2R a - 0) <= tolerance)%R.

(** The frames a run has read: one per iteration, from the front. *)
Definition read_frames (r : Run) (frames : list Frame) : list Frame :=
  firstn (length (iterations r)) frames.

(** A value of the accumulator to which time was never added: a zero or
    NaN. *)
Definition idle (x : spec_float) : Prop :=
  match x with
  | S754_zero _ | S754_nan => True
  | _ => False
  end.

(** A frame drawn from [scene] with only the angle changed, to an angle at
    least 0 and below [2 * M_PI]. *)
Definition draws_scene_in_range (scene : Scene) (c : Call) : Prop :=
  match c with
  | CallUpdate _ => True
  | CallDraw commands =>
      exists a : spec_float,
        commands = Draw (set_angle scene a) /\
        SFleb pzero a = true /\ dgt two_pi (double_of_float a) = true
  end.

(** ** Start-up: the resource wrappers and [main]

    The code before the loop calls the platform (SDL, the GL driver, the file
    system) and stops at the first failure by [FatalError], which throws. It is
    modelled as the list of platform calls made, in order, with the result.
    The answers of the platform are the fields of [Platform]. Nothing catches
    the exception, so the model ends a run at the [throw]. *)

Notation "a +++ b" := (String.append a b) (at level 60, right associativity).

Open Scope string_scope.

Definition newline : String.string :=
  String.String (Ascii.ascii_of_nat 10) String.EmptyString.

(** [operator<<] on a [GLenum] (an [unsigned int]): decimal digits. *)
Definition decimal (n : Z) : String.string :=
  DecimalString.NilZero.string_of_uint (N.to_uint (Z.to_N n)).

(** The C string that starts at the first character of a buffer: what
    [glShaderSource] with a null length array, and [operator<<] on a [char*],
    read. *)
Fixpoint c_str (s : String.string) : String.string :=
  match s with
  | String.EmptyString => String.EmptyString
  | String.String c rest =>
      if Ascii.eqb c (Ascii.ascii_of_nat 0) then String.EmptyString
      else String.String c (c_str rest)
  end.

(** [std::string] as the error paths use it: [reserve] changes the capacity
    and not the size; a default-constructed string is empty. *)
Record std_string : Type := mkString {
  chars : String.string;
  capacity : Z
}.

Definition empty_string : std_string := mkString String.EmptyString 0.

Definition reserve (n : Z) (s : std_string) : std_string :=
  mkString (chars s) (Z.max (capacity s) n).

Definition size (s : std_string) : Z := Z.of_nat (String.length (chars s)).

(** [glGetShaderInfoLog(h, bufSize, NULL, &log[0])] followed by reading
    [&log[0]] as a C string: the driver writes at most [bufSize] characters,
    the terminator included, and nothing when [bufSize] is 0. *)
Definition info_log_read (bufSize : Z) (driver_log : String.string)
    (log : std_string) : String.string :=
  if bufSize <=? 0 then c_str (chars log)
  else c_str (String.substring 0 (Z.to_nat (bufSize - 1)) driver_log).

(** [GL_INFO_LOG_LENGTH]: the length of the log with its terminator, 0 when
    there is no log. *)
Definition info_log_length (driver_log : String.string) : Z :=
  match driver_log with
  | String.EmptyString => 0
  | _ => Z.of_nat (String.length driver_log) + 1
  end.

Definition GL_VERTEX_SHADER : Z := 35633.     (* 0x8B31 *)
Definition GL_FRAGMENT_SHADER : Z := 35632.   (* 0x8B30 *)
Definition SDL_GL_CONTEXT_FORWARD_COMPATIBLE_FLAG : Z := 2.
Definition SDL_GL_CONTEXT_PROFILE_CORE : Z := 1.
Definition SDL_WINDOW_OPENGL : Z := 2.
Definition SDL_WINDOW_ALLOW_HIGHDPI : Z := 8192.

Inductive SDL_GLattr : Type :=
| SDL_GL_CONTEXT_FLAGS
| SDL_GL_CONTEXT_PROFILE_MASK
| SDL_GL_CONTEXT_MAJOR_VERSION
| SDL_GL_CONTEXT_MINOR_VERSION
| SDL_GL_DOUBLEBUFFER
| SDL_GL_DEPTH_SIZE.

Inductive GLQuery : Type :=
| GL_COMPILE_STATUS
| GL_LINK_STATUS
| GL_INFO_LOG_LENGTH.

Inductive PlatformCall : Type :=
| SDL_Init
| SDL_Quit
| SDL_GetError
| SDL_GL_SetAttribute (attr : SDL_GLattr) (value : Z)
| SDL_CreateWindow (title : String.string) (w h flags : Z)
| SDL_DestroyWindow (window : Z)
| SDL_GL_CreateContext (window : Z)
| SDL_GL_SetSwapInterval (interval : Z)
| SDL_GL_DeleteContext (context : Z)
| SDL_GetBasePath
| SDL_ShowSimpleMessageBox (title message : String.string)
| cerr_write (text : String.string)
| cout_write (text : String.string)
| ifstream_open (path : String.string)
| glCreateShader (type : Z)
| glShaderSource (shader : Z) (source : String.string)
| glCompileShader (shader : Z)
| glGetShaderiv (shader : Z) (pname : GLQuery)
| glGetShaderInfoLog (shader bufSize : Z)
| glDeleteShader (shader : Z)
| glCreateProgram
| glAttachShader (prog shader : Z)
| glLinkProgram (prog : Z)
| glGetProgramiv (prog : Z) (pname : GLQuery)
| glGetProgramInfoLog (prog bufSize : Z)
| glDeleteProgram (prog : Z)
| glGetUniformLocation (prog : Z) (name : String.string)
| glGenBuffers
| glBindBuffer_ARRAY (buffer : Z)
| glBufferData_ARRAY_STATIC_DRAW (bytes : Z)
| glDeleteBuffers (buffer : Z)
| glGenVertexArrays
| glDeleteVertexArrays (array : Z)
| glVertexAttribPointer_FLOAT (index components stride offset : Z)
| glEnableVertexAttribArray (index : Z)
| gl (c : GLCommand)
| in_loop (c : Call).

Record ShaderDriver : Type := mkShaderDriver {
  created_shader : Z;                 (* what [glCreateShader] returns *)
  compile_status : Z;
  shader_info_log : String.string
}.

Record ProgramDriver : Type := mkProgramDriver {
  created_program : Z;                (* what [glCreateProgram] returns *)
  link_status : Z;
  program_info_log : String.string
}.

Record Platform : Type := mkPlatform {
  sdl_init_result : Z;
  sdl_error : String.string;          (* what [SDL_GetError] returns *)
  created_window : Z;                 (* 0 is the null pointer *)
  created_context : Z;                (* 0 is the null context *)
  swap_interval_result : Z;
  base_path : String.string;
  file_contents : String.string -> option String.string;
  open_error : String.string;         (* [strerror(errno)] *)
  vertex_driver : ShaderDriver;
  fragment_driver : ShaderDriver;
  program_driver : ProgramDriver;
  uniform_location : Z;
  generated_buffer : Z;
  generated_vertex_array : Z;
  counter_frequency : Z;
  first_tick : Z;
  frame_script : list Frame
}.

Inductive Result (A : Type) : Type :=
| Returned (a : A)
| Thrown (what : String.string)       (* [std::runtime_error] from [FatalError] *)
| InLoop                              (* the frame script ended inside [GameLoop] *)
| Undefined.                          (* undefined behaviour *)

Arguments Returned {A} a.
Arguments Thrown {A} what.
Arguments InLoop {A}.
Arguments Undefined {A}.

(** The calls made, then how the code ended. *)
Definition M (A : Type) : Type := (list PlatformCall * Result A)%type.

Definition ret {A : Type} (a : A) : M A := ([], Returned a).

Definition bind {A B : Type} (m : M A) (k : A -> M B) : M B :=
  match m with
  | (t, Returned a) => let (t', r) := k a in (t ++ t', r)
  | (t, Thrown what) => (t, Thrown what)
  | (t, InLoop) => (t, InLoop)
  | (t, Undefined) => (t, Undefined)
  end.

Definition call (c : PlatformCall) : M unit := ([c], Returned tt).

Notation "x <- m ;; k" := (bind m (fun x => k))
  (at level 61, m at next level, right associativity).
Notation "m ;; k" := (bind m (fun _ => k))
  (at level 61, right associativity).

(** [FatalError]: the message goes to [std::cerr], to a message box when
    asked, and into the exception thrown. *)
Definition FatalError {A : Type} (message : String.string)
    (showSdlMessageBox : bool) : M A :=
  (cerr_write message
   :: (if showSdlMessageBox
       then [SDL_ShowSimpleMessageBox "OpenGL Sandbox" message] else []),
   Thrown message).

(** [SDL::SDL]. *)
Definition SDL_ctor (p : Platform) : M unit :=
  call SDL_Init ;;
  if sdl_init_result p <? 0 then
    call SDL_GetError ;;
    FatalError ("Failed to initialized SDL: " +++ sdl_error p) false
  else ret tt.

(** [MainWindow::MainWindow]. *)
Definition MainWindow_ctor (p : Platform) : M Z :=
  call (SDL_GL_SetAttribute SDL_GL_CONTEXT_FLAGS
          SDL_GL_CONTEXT_FORWARD_COMPATIBLE_FLAG) ;;
  call (SDL_GL_SetAttribute SDL_GL_CONTEXT_PROFILE_MASK
          SDL_GL_CONTEXT_PROFILE_CORE) ;;
  call (SDL_GL_SetAttribute SDL_GL_CONTEXT_MAJOR_VERSION 3) ;;
  call (SDL_GL_SetAttribute SDL_GL_CONTEXT_MINOR_VERSION 3) ;;
  call (SDL_GL_SetAttribute SDL_GL_DOUBLEBUFFER 1) ;;
  call (SDL_GL_SetAttribute SDL_GL_DEPTH_SIZE 24) ;;
  call (SDL_CreateWindow "OpenGL Sandbox" 640 640
          (Z.lor SDL_WINDOW_OPENGL SDL_WINDOW_ALLOW_HIGHDPI)) ;;
  if created_window p =? 0 then
    call SDL_GetError ;;
    FatalError ("Failed to create main window: " +++ sdl_error p) true
  else ret (created_window p).

(** [OpenGL::OpenGL]: a swap interval that cannot be set is only reported. *)
Definition OpenGL_ctor (p : Platform) (window : Z) : M Z :=
  call (SDL_GL_CreateContext window) ;;
  if created_context p =? 0 then
    call SDL_GetError ;;
    FatalError ("Failed to create OpenGL context: " +++ sdl_error p) true
  else
    call (SDL_GL_SetSwapInterval 1) ;;
    (if swap_interval_result p <? 0
     then call (cout_write ("could not set the swap interval" +++ newline))
     else ret tt) ;;
    ret (created_context p).

(** [ResourceLoader::LoadFile]. *)
Definition LoadFile (p : Platform) (filename : String.string) : M String.string :=
  let resourcePath := base_path p +++ filename in
  call (ifstream_open resourcePath) ;;
  match file_contents p resourcePath with
  | Some contents => ret contents
  | None =>
      FatalError ("Error opening file: " +++ resourcePath +++ " - "
                  +++ open_error p +++ newline) true
  end.

(** [Shader::Shader]. *)
Definition Shader_ctor (d : ShaderDriver) (type : Z) (source : String.string)
  : M Z :=
  call (glCreateShader type) ;;
  let shaderHandle := created_shader d in
  call (glShaderSource shaderHandle (c_str source)) ;;
  call (glCompileShader shaderHandle) ;;
  call (glGetShaderiv shaderHandle GL_COMPILE_STATUS) ;;
  if compile_status d =? 0 then
    call (glGetShaderiv shaderHandle GL_INFO_LOG_LENGTH) ;;
    let log := reserve (info_log_length (shader_info_log d)) empty_string in
    call (glGetShaderInfoLog shaderHandle (size log)) ;;
    FatalError ("Error compiling " +++ decimal type +++ " shader:" +++ newline
                +++ info_log_read (size log) (shader_info_log d) log
                +++ newline) true
  else ret shaderHandle.

(** [Shader::~Shader]. *)
Definition Shader_dtor (shaderHandle : Z) : M unit :=
  if shaderHandle =? 0 then ret tt else call (glDeleteShader shaderHandle).

(** [ShaderProgram::LinkProgram]. *)
Definition LinkProgram (d : ProgramDriver) (vertexShader fragmentShader : Z)
  : M Z :=
  call glCreateProgram ;;
  let shaderProgramHandle := created_program d in
  call (glAttachShader shaderProgramHandle vertexShader) ;;
  call (glAttachShader shaderProgramHandle fragmentShader) ;;
  call (glLinkProgram shaderProgramHandle) ;;
  call (glGetProgramiv shaderProgramHandle GL_LINK_STATUS) ;;
  if link_status d =? 0 then
    call (glGetProgramiv shaderProgramHandle GL_INFO_LOG_LENGTH) ;;
    let log := reserve (info_log_length (program_info_log d)) empty_string in
    call (glGetProgramInfoLog shaderProgramHandle (size log)) ;;
    FatalError ("Error linking vertex and fragment shaders:" +++ newline
                +++ info_log_read (size log) (program_info_log d) log
                +++ newline) true
  else ret shaderProgramHandle.

(** [ShaderProgram::ShaderProgram] from two file names. The two shader
    objects are local: they are destroyed, the fragment shader first, when the
    constructor returns. *)
Definition ShaderProgram_ctor (p : Platform)
    (vertexShaderFilename fragmentShaderFilename : String.string) : M Z :=
  call SDL_GetBasePath ;;
  vertexShaderSource <- LoadFile p vertexShaderFilename ;;
  fragmentShaderSource <- LoadFile p fragmentShaderFilename ;;
  vertexShader <- Shader_ctor (vertex_driver p) GL_VERTEX_SHADER
                    vertexShaderSource ;;
  fragmentShader <- Shader_ctor (fragment_driver p) GL_FRAGMENT_SHADER
                      fragmentShaderSource ;;
  shaderProgramHandle <- LinkProgram (program_driver p) vertexShader
                           fragmentShader ;;
  Shader_dtor fragmentShader ;;
  Shader_dtor vertexShader ;;
  ret shaderProgramHandle.

(** [VertexBuffer::VertexBuffer] for data of [bytes] bytes. *)
Definition VertexBuffer_ctor (p : Platform) (bytes : Z) : M Z :=
  call glGenBuffers ;;
  let bufferHandle := generated_buffer p in
  call (glBindBuffer_ARRAY bufferHandle) ;;
  call (glBufferData_ARRAY_STATIC_DRAW bytes) ;;
  call (glBindBuffer_ARRAY 0) ;;
  ret bufferHandle.

(** [VertexArray::VertexArray]. *)
Definition VertexArray_ctor (p : Platform) (configureVertexArray : M unit)
  : M Z :=
  call glGenVertexArrays ;;
  let arrayHandle := generated_vertex_array p in
  call (gl (glBindVertexArray arrayHandle)) ;;
  configureVertexArray ;;
  call (gl (glBindVertexArray 0)) ;;
  ret arrayHandle.

(** The lambda that [main] gives to [VertexArray]. *)
Definition configure_quad (vertexBuffer : Z) : M unit :=
  call (glBindBuffer_ARRAY vertexBuffer) ;;
  call (glVertexAttribPointer_FLOAT 0 2 0 0) ;;
  call (glEnableVertexAttribArray 0) ;;
  call (glBindBuffer_ARRAY 0).

(** [GameLoop] as [main] runs it: the [Update] and [Draw] calls made. *)
Definition run_GameLoop (p : Platform) (scene : Scene) : M unit :=
  let r := GameLoop (counter_frequency p) (first_tick p) (frame_script p) scene in
  (map in_loop (concat (iterations r)),
   match outcome r with
   | Exited => Returned tt
   | StillRunning => InLoop
   end).

(** [main]. The objects are destroyed in the reverse order of their
    declaration when [main] returns. *)
Definition main (p : Platform) : M Z :=
  SDL_ctor p ;;
  mainWindow <- MainWindow_ctor p ;;
  openGL <- OpenGL_ctor p mainWindow ;;
  shaderProgram <- ShaderProgram_ctor p "shader.vert" "shader.frag" ;;
  call (glGetUniformLocation shaderProgram "angle") ;;
  vertexBuffer <- VertexBuffer_ctor p (sizeof_array 8 4) ;;
  vertexArray' <- VertexArray_ctor p (configure_quad vertexBuffer) ;;
  match main_scene shaderProgram vertexArray' (uniform_location p) with
  | None => ([], Undefined)
  | Some scene =>
      run_GameLoop p scene ;;
      call (glDeleteVertexArrays vertexArray') ;;
      call (glDeleteBuffers vertexBuffer) ;;
      call (glDeleteProgram shaderProgram) ;;
      call (SDL_GL_DeleteContext openGL) ;;
      call (SDL_DestroyWindow mainWindow) ;;
      call SDL_Quit ;;
      ret 0
  end.

(** The calls of a trace that release a resource, and those made inside the
    loop. *)
Definition is_release (c : PlatformCall) : bool :=
  match c with
  | SDL_Quit | SDL_DestroyWindow _ | SDL_GL_DeleteContext _
  | glDeleteShader _ | glDeleteProgram _ | glDeleteBuffers _
  | glDeleteVertexArrays _ => true
  | _ => false
  end.

Definition is_in_loop (c : PlatformCall) : bool :=
  match c with in_loop _ => true | _ => false end.

(** What [main] calls after the loop, and the deletions of the two shader
    objects that [ShaderProgram] makes. *)
Definition shutdown_calls (p : Platform) : list PlatformCall :=
  [ glDeleteVertexArrays (generated_vertex_array p);
    glDeleteBuffers (generated_buffer p);
    glDeleteProgram (created_program (program_driver p));
    SDL_GL_DeleteContext (created_context p);
    SDL_DestroyWindow (created_window p);
    SDL_Quit ].

Definition shader_deletes (p : Platform) : list PlatformCall :=
  (if created_shader (fragment_driver p) =? 0 then []
   else [glDeleteShader (created_shader (fragment_driver p))])
  ++ (if created_shader (vertex_driver p) =? 0 then []
      else [glDeleteShader (created_shader (vertex_driver p))]).

Definition is_acquire (c : PlatformCall) : bool :=
  match c with
  | SDL_Init | SDL_CreateWindow _ _ _ _ | SDL_GL_CreateContext _
  | glCreateShader _ | glCreateProgram | glGenBuffers | glGenVertexArrays => true
  | _ => false
  end.

(** Everything that start-up needs from the platform; the swap interval is
    not part of it. *)
Definition startup_ok (p : Platform) : bool :=
  (0 <=? sdl_init_result p)
  && negb (created_window p =? 0)
  && negb (created_context p =? 0)
  && match file_contents p (base_path p +++ "shader.vert") with
     | Some _ => true | None => false end
  && match file_contents p (base_path p +++ "shader.frag") with
     | Some _ => true | None => false end
  && negb (compile_status (vertex_driver p) =? 0)
  && negb (compile_status (fragment_driver p) =? 0)
  && negb (link_status (program_driver p) =? 0).

(** The scene that [main] builds on platform [p]. *)
Definition scene_of_main (p : Platform) : Scene :=
  mkScene true (created_program (program_driver p)) (generated_vertex_array p)
          4 (uniform_location p) pzero.

(** A call of [main] that, if it is a [Draw], draws the scene of [main] with
    an angle in range. *)
Definition draws_main_scene (p : Platform) (c : PlatformCall) : Prop :=
  match c with
  | in_loop frame_call => draws_scene_in_range (scene_of_main p) frame_call
  | _ => True
  end.

(** A platform for the examples: everything succeeds, the counter runs at
    60 Hz and a quit request arrives in the fifth iteration. *)
Definition example_platform : Platform :=
  mkPlatform 0 String.EmptyString 1 1 0 "/app/"
    (fun path => Some ("void main() {}" +++ newline))
    "No such file or directory"
    (mkShaderDriver 1 1 String.EmptyString)
    (mkShaderDriver 2 1 String.EmptyString)
    (mkProgramDriver 3 1 String.EmptyString)
    0 1 1 60 0 (script 1 100 5).


Close Scope string_scope.

(** ** Integer facts about mantissas *)

Lemma digits2_pos_size (m : positive) : digits2_pos m = Pos.size m.
Proof. induction m; simpl; congruence. Qed.

Lemma digits_pos (m : positive) : 0 < digits m.
Proof. unfold digits. lia. Qed.

Lemma pow2_pos (k : Z) : 0 <= k -> 0 < 2 ^ k.
Proof. intros. apply Z.pow_pos_nonneg; lia. Qed.

Lemma pow2_succ (k : Z) : 0 <= k -> 2 ^ (k + 1) = 2 * 2 ^ k.
Proof. intros. rewrite Z.pow_add_r by lia. lia. Qed.

Lemma digits_bounds (m : positive) :
  2 ^ (digits m - 1) <= Zpos m < 2 ^ digits m.
Proof.
  unfold digits. rewrite digits2_pos_size.
  pose proof (Pos.size_gt m) as Hgt. pose proof (Pos.size_le m) as Hle.
  assert (E : 2 ^ Zpos (Pos.size m) = Zpos (2 ^ Pos.size m))
    by (rewrite Pos2Z.inj_pow; reflexivity).
  pose proof (pow2_succ (Zpos (Pos.size m) - 1) ltac:(lia)) as E2.
  replace (Zpos (Pos.size m) - 1 + 1) with (Zpos (Pos.size m)) in E2 by lia.
  lia.
Qed.

Lemma pow2_lt_inv (a b : Z) : 0 <= b -> 2 ^ a < 2 ^ b -> a < b.
Proof. intros Hb H. apply (Z.pow_lt_mono_r_iff 2); lia. Qed.

Lemma pow2_le (a b : Z) : 0 <= a <= b -> 2 ^ a <= 2 ^ b.
Proof. intros. apply Z.pow_le_mono_r; lia. Qed.

Lemma digits_unique (m : positive) (k : Z) :
  2 ^ (k - 1) <= Zpos m < 2 ^ k -> digits m = k.
Proof.
  intros [Hl Hu]. pose proof (digits_bounds m) as [Dl Du].
  pose proof (digits_pos m) as Dp.
  assert (0 < k).
  { destruct (Z_lt_le_dec 0 k) as [|Hk]; auto.
    destruct (Z.eq_dec k 0) as [->|]; [simpl in Hu; lia|].
    rewrite Z.pow_neg_r in Hu by lia. lia. }
  assert (digits m - 1 < k) by (apply pow2_lt_inv; lia).
  assert (k - 1 < digits m) by (apply pow2_lt_inv; lia).
  lia.
Qed.

Lemma digits_shl (m : positive) (k : Z) (p : positive) :
  0 <= k -> Zpos p = Zpos m * 2 ^ k -> digits p = digits m + k.
Proof.
  intros Hk E. pose proof (digits_bounds m) as [Dl Du].
  pose proof (digits_pos m) as Dp. pose proof (pow2_pos k Hk).
  apply digits_unique. rewrite E.
  replace (digits m + k - 1) with ((digits m - 1) + k) by lia.
  rewrite !Z.pow_add_r by lia. nia.
Qed.

(** ** The shift with round and sticky bits *)

Lemma shr_1_inbetween (x k : Z) (mrs : shr_record) :
  0 <= k -> 0 <= shr_m mrs ->
  inbetween x k (shr_m mrs) (loc_of_shr_record mrs) ->
  0 <= shr_m (shr_1 mrs) /\
  inbetween x (k + 1) (shr_m (shr_1 mrs)) (loc_of_shr_record (shr_1 mrs)).
Proof.
  intros Hk Hm [Hr Hl]. pose proof (pow2_pos k Hk) as HP.
  unfold inbetween. rewrite pow2_succ by lia.
  destruct mrs as [m r s].
  generalize dependent (2 ^ k). intros P Hr Hl HP.
  cbn [shr_m] in Hr, Hl, Hm.
  destruct m as [|[p|p|]|p]; try (exfalso; lia).
  - destruct r, s; cbn [shr_1 orb shr_m loc_of_shr_record] in *; lia.
  - assert (E : Zpos p~1 * P = 2 * (Zpos p * P) + P) by lia.
    assert (E1 : (Zpos p~1 + 1) * P = 2 * (Zpos p * P) + 2 * P) by lia.
    assert (E2 : (Zpos p + 1) * (2 * P) = 2 * (Zpos p * P) + 2 * P) by lia.
    assert (E3 : Zpos p * (2 * P) = 2 * (Zpos p * P)) by lia.
    rewrite E in *. rewrite E1 in *.
    destruct r, s; cbn [shr_1 orb shr_m loc_of_shr_record] in *;
      rewrite E2, E3; generalize dependent (Zpos p * P); intros; lia.
  - assert (E : Zpos p~0 * P = 2 * (Zpos p * P)) by lia.
    assert (E1 : (Zpos p~0 + 1) * P = 2 * (Zpos p * P) + P) by lia.
    assert (E2 : (Zpos p + 1) * (2 * P) = 2 * (Zpos p * P) + 2 * P) by lia.
    assert (E3 : Zpos p * (2 * P) = 2 * (Zpos p * P)) by lia.
    rewrite E in *. rewrite E1 in *.
    destruct r, s; cbn [shr_1 orb shr_m loc_of_shr_record] in *;
      rewrite E2, E3; generalize dependent (Zpos p * P); intros; lia.
  - destruct r, s; cbn [shr_1 orb shr_m loc_of_shr_record] in *; lia.
Qed.

Lemma iter_shr_1_inbetween (x : Z) (p : positive) :
  forall (k : Z) (mrs : shr_record),
  0 <= k -> 0 <= shr_m mrs ->
  inbetween x k (shr_m mrs) (loc_of_shr_record mrs) ->
  0 <= shr_m (iter_pos shr_1 p mrs) /\
  inbetween x (k + Zpos p) (shr_m (iter_pos shr_1 p mrs))
            (loc_of_shr_record (iter_pos shr_1 p mrs)).
Proof.
  induction p as [p IH|p IH|]; intros k mrs Hk Hm Hin; simpl.
  - destruct (shr_1_inbetween x k mrs Hk Hm Hin) as [H1 H2].
    destruct (IH (k + 1) _ ltac:(lia) H1 H2) as [H3 H4].
    destruct (IH (k + 1 + Zpos p) _ ltac:(lia) H3 H4) as [H5 H6].
    split; auto. replace (k + Zpos p~1) with (k + 1 + Zpos p + Zpos p) by lia. exact H6.
  - destruct (IH k _ Hk Hm Hin) as [H3 H4].
    destruct (IH (k + Zpos p) _ ltac:(lia) H3 H4) as [H5 H6].
    split; auto. replace (k + Zpos p~0) with (k + Zpos p + Zpos p) by lia. exact H6.
  - apply shr_1_inbetween; auto.
Qed.

Lemma shr_inbetween (x e n : Z) :
  0 <= x -> 0 <= n ->
  let r := shr (Build_shr_record x false false) e n in
  snd r = e + n /\ 0 <= shr_m (fst r) /\
  inbetween x n (shr_m (fst r)) (loc_of_shr_record (fst r)).
Proof.
  intros Hx Hn. assert (H0 : inbetween x 0 x loc_Exact).
  { unfold inbetween. simpl. lia. }
  destruct n as [|p|p]; try lia; simpl.
  - repeat split; try lia; apply H0.
  - split; [reflexivity|].
    apply (iter_shr_1_inbetween x p 0 (Build_shr_record x false false)); auto; lia.
Qed.

Lemma rne_range (m : Z) (l : location) :
  m <= round_nearest_even m l <= m + 1.
Proof.
  destruct l as [|[| |]]; simpl; try lia. destruct (Z.even m); lia.
Qed.

(** Rounding to nearest never jumps over a multiple of [2^n] above [x]. *)
Lemma rne_le (x n m K : Z) (l : location) :
  0 <= n -> inbetween x n m l -> x <= K * 2 ^ n ->
  round_nearest_even m l <= K.
Proof.
  intros Hn [Hr Hl] HK. pose proof (pow2_pos n Hn) as HP.
  assert (m <= K) by nia.
  destruct (Z.eq_dec m K) as [->|]; [|pose proof (rne_range m l); lia].
  destruct l as [|[| |]]; simpl; lia.
Qed.

(** ** Real values *)

Open Scope R_scope.

Lemma bpow_gt_0 (e : Z) : 0 < bpow e.
Proof. apply powerRZ_lt. lra. Qed.

Lemma bpow_add (a b : Z) : bpow (a + b) = bpow a * bpow b.
Proof. apply powerRZ_add. lra. Qed.

Lemma bpow_IZR (k : Z) : (0 <= k)%Z -> bpow k = IZR (2 ^ k).
Proof.
  intros Hk. pattern k. apply natlike_ind; auto.
  intros j Hj IH. unfold Z.succ. rewrite bpow_add, IH, pow2_succ by lia.
  rewrite mult_IZR. unfold bpow. simpl. lra.
Qed.

Lemma bpow_le (a b : Z) : (a <= b)%Z -> bpow a <= bpow b.
Proof.
  intros H. replace b with (a + (b - a))%Z by lia.
  rewrite bpow_add, (bpow_IZR (b - a)) by lia.
  pose proof (bpow_gt_0 a). pose proof (pow2_pos (b - a) ltac:(lia)) as HP.
  apply IZR_lt in HP. assert (1 <= IZR (2 ^ (b - a))) by (apply IZR_le; lia).
  nra.
Qed.

Lemma bpow_lt_inv (a b : Z) : bpow a < bpow b -> (a < b)%Z.
Proof.
  intros H. destruct (Z_lt_le_dec a b); auto.
  pose proof (bpow_le b a ltac:(lia)). lra.
Qed.

Lemma F2R_shift (m e k : Z) : (0 <= k)%Z -> F2R (m * 2 ^ k) e = F2R m (e + k).
Proof.
  intros. unfold F2R. rewrite mult_IZR, bpow_add, <- bpow_IZR by lia. ring.
Qed.

Lemma F2R_le (a b e : Z) : F2R a e <= F2R b e <-> (a <= b)%Z.
Proof.
  unfold F2R. pose proof (bpow_gt_0 e). split; intros Hab.
  - apply le_IZR. nra.
  - apply IZR_le in Hab. nra.
Qed.

Lemma F2R_lt (a b e : Z) : F2R a e < F2R b e <-> (a < b)%Z.
Proof.
  unfold F2R. pose proof (bpow_gt_0 e). split; intros Hab.
  - apply lt_IZR. nra.
  - apply IZR_lt in Hab. nra.
Qed.

(** A mantissa of [d] digits at exponent [e] lies in [[2^(d+e-1), 2^(d+e))]. *)
Lemma F2R_digits (m : positive) (e : Z) :
  bpow (digits m + e - 1) <= F2R (Zpos m) e < bpow (digits m + e).
Proof.
  pose proof (digits_bounds m) as [Hl Hu]. pose proof (digits_pos m).
  replace (digits m + e - 1)%Z with ((digits m - 1) + e)%Z by lia.
  rewrite !bpow_add, (bpow_IZR (digits m - 1)), (bpow_IZR (digits m)) by lia.
  unfold F2R.
  pose proof (bpow_gt_0 e). apply IZR_le in Hl. apply IZR_lt in Hu.
  split; nra.
Qed.

Close Scope R_scope.

(** ** Rounding to a format: what [binary_round] returns *)

Section Rounding.

Variables prec emax : Z.
Hypothesis Hprec : 0 < prec.

Local Abbreviation fexp := (SpecFloat.fexp prec emax).

Lemma fexp_mono (a b : Z) : a <= b -> fexp a <= fexp b.
Proof. unfold SpecFloat.fexp. lia. Qed.

Lemma canonical_iff (m : positive) (e : Z) :
  canonical_mantissa prec emax m e = true <-> fexp (digits m + e) = e.
Proof. unfold canonical_mantissa, digits. apply Z.eqb_eq. Qed.

Lemma bounded_iff (m : positive) (e : Z) :
  bounded prec emax m e = true <->
  fexp (digits m + e) = e /\ e <= emax - prec.
Proof.
  unfold bounded. rewrite andb_true_iff, canonical_iff, Z.leb_le. tauto.
Qed.

Lemma mag_le (m1 m2 : positive) (e1 e2 : Z) :
  (F2R (Zpos m1) e1 <= F2R (Zpos m2) e2)%R ->
  digits m1 + e1 <= digits m2 + e2.
Proof.
  intros H. pose proof (F2R_digits m1 e1) as [L1 _].
  pose proof (F2R_digits m2 e2) as [_ U2].
  assert (digits m1 + e1 - 1 < digits m2 + e2) by (apply bpow_lt_inv; lra).
  lia.
Qed.

Lemma canonical_exp_le (m1 m2 : positive) (e1 e2 : Z) :
  canonical_mantissa prec emax m1 e1 = true ->
  canonical_mantissa prec emax m2 e2 = true ->
  (F2R (Zpos m1) e1 <= F2R (Zpos m2) e2)%R -> e1 <= e2.
Proof.
  rewrite !canonical_iff. intros C1 C2 H. rewrite <- C1, <- C2.
  apply fexp_mono, mag_le, H.
Qed.

Lemma canonical_exp_lt (m1 m2 : positive) (e1 e2 : Z) :
  canonical_mantissa prec emax m1 e1 = true ->
  canonical_mantissa prec emax m2 e2 = true ->
  e1 < e2 -> (F2R (Zpos m1) e1 < F2R (Zpos m2) e2)%R.
Proof.
  rewrite !canonical_iff. intros C1 C2 H.
  assert (HD : digits m1 + e1 < digits m2 + e2).
  { destruct (Z_lt_le_dec (digits m1 + e1) (digits m2 + e2)) as [|Hge]; auto.
    apply fexp_mono in Hge. lia. }
  pose proof (F2R_digits m1 e1) as [_ U1].
  pose proof (F2R_digits m2 e2) as [L2 _].
  pose proof (bpow_le (digits m1 + e1) (digits m2 + e2 - 1) ltac:(lia)).
  lra.
Qed.

(** The second [shr_fexp] of [binary_round_aux]: after rounding, the mantissa
    either still has the right number of digits or is the next power of two,
    and is then shifted once more, exactly. *)
Lemma shr_fexp_renorm (m1 : positive) (e1 D : Z) :
  e1 = fexp D ->
  digits m1 + e1 = D \/
  (digits m1 + e1 = D + 1 /\ Zpos m1 = 2 ^ (digits m1 - 1)) ->
  exists (m2 : positive) (e2 : Z),
    shr_fexp prec emax (Zpos m1) e1 loc_Exact
      = (Build_shr_record (Zpos m2) false false, e2) /\
    canonical_mantissa prec emax m2 e2 = true /\
    F2R (Zpos m2) e2 = F2R (Zpos m1) e1.
Proof.
  intros He1 Hd. unfold shr_fexp. cbn [Zdigits2 shr_record_of_loc].
  fold (digits m1).
  destruct (Z.eq_dec (fexp (digits m1 + e1)) e1) as [E|E].
  - exists m1, e1. rewrite E, Z.sub_diag. simpl.
    rewrite canonical_iff. auto.
  - destruct Hd as [Hd|[Hd Hpow]]; [rewrite Hd in E; lia|].
    rewrite Hd in *.
    assert (E1 : fexp (D + 1) = e1 + 1) by (unfold SpecFloat.fexp in *; lia).
    assert (Hdm : digits m1 = prec + 1) by (unfold SpecFloat.fexp in *; lia).
    rewrite E1. replace (e1 + 1 - e1) with 1 by lia.
    rewrite Hdm in Hpow. replace (prec + 1 - 1) with (prec - 1 + 1) in Hpow by lia.
    rewrite pow2_succ in Hpow by lia.
    destruct m1 as [p|p|]; try lia.
    exists p, (e1 + 1). simpl. split; [reflexivity|]. split.
    + rewrite canonical_iff.
      pose proof (digits_shl p 1 (p~0) ltac:(lia) ltac:(change (2 ^ 1) with 2; lia)).
      replace (digits p + (e1 + 1)) with (D + 1) by lia. exact E1.
    + rewrite <- F2R_shift by lia. f_equal. change (2 ^ 1) with 2. lia.
Qed.

(** [binary_round_aux] on an exact mantissa with at least the digits of the
    format: the result is a zero or a well-formed float of the format, and it
    never exceeds a float of the format that the exact value does not exceed. *)
Lemma binary_round_aux_le (s : bool) (m : positive) (e : Z)
    (mb : positive) (eb : Z) :
  e <= fexp (digits m + e) ->
  bounded prec emax mb eb = true ->
  (F2R (Zpos m) e <= F2R (Zpos mb) eb)%R ->
  match binary_round_aux prec emax s (Zpos m) e loc_Exact with
  | S754_zero s' => s' = s
  | S754_finite s' m2 e2 =>
      s' = s /\ bounded prec emax m2 e2 = true /\
      (F2R (Zpos m2) e2 <= F2R (Zpos mb) eb)%R
  | _ => False
  end.
Proof.
  intros Hn Hb Hle. apply bounded_iff in Hb as [Hcan Hemax].
  assert (HcanB : canonical_mantissa prec emax mb eb = true)
    by (apply canonical_iff; exact Hcan).
  set (d := digits m) in *. set (D := d + e) in *. set (e1 := fexp D) in *.
  assert (He1 : e1 <= eb).
  { rewrite <- Hcan. apply fexp_mono. apply mag_le. exact Hle. }
  set (n := e1 - e).
  assert (ED : D = d + e) by reflexivity.
  assert (En : n = e1 - e) by reflexivity.
  assert (Ee1 : e1 = fexp D) by reflexivity.
  set (K := Zpos mb * 2 ^ (eb - e1)).
  assert (HKB : F2R K e1 = F2R (Zpos mb) eb).
  { unfold K. rewrite F2R_shift by lia. f_equal. lia. }
  assert (HK : Zpos m <= K * 2 ^ n).
  { apply (F2R_le _ _ e). rewrite F2R_shift by lia.
    replace (e + n) with e1 by lia. rewrite HKB. exact Hle. }
  pose proof (digits_bounds m) as [Dl Du]. fold d in Dl, Du.
  pose proof (digits_pos m) as Dp. fold d in Dp.
  unfold binary_round_aux, shr_fexp at 1. cbn [Zdigits2 shr_record_of_loc].
  fold (digits m). fold d. fold D. fold e1. fold n.
  pose proof (shr_inbetween (Zpos m) e n ltac:(lia) ltac:(lia)) as (Hs1 & Hs2 & Hs3).
  destruct (shr {| shr_m := Zpos m; shr_r := false; shr_s := false |} e n)
    as [mrs' e'] eqn:E1.
  cbn [fst snd] in Hs1, Hs2, Hs3. subst e'. replace (e + n) with e1 by lia.
  set (l := loc_of_shr_record mrs') in *. set (m' := shr_m mrs') in *.
  pose proof (rne_range m' l) as Hrange.
  pose proof (rne_le (Zpos m) n m' K l ltac:(lia) Hs3 HK) as HleK.
  set (m1 := round_nearest_even m' l) in *.
  pose proof (pow2_pos n ltac:(lia)) as HPn.
  destruct m1 as [|p1|p1] eqn:Em1; try lia.
  - (* the value underflows to zero *)
    unfold shr_fexp. cbn [Zdigits2 shr_record_of_loc].
    assert (Hz : fexp (0 + e1) - e1 <= 0) by (unfold e1, SpecFloat.fexp; lia).
    destruct (fexp (0 + e1) - e1) eqn:En2; try lia; simpl; reflexivity.
  - assert (Hnd : n <= d).
    { destruct (Z_le_gt_dec n d) as [|Hgt]; auto. exfalso.
      assert (2 * 2 ^ d <= 2 ^ n).
      { rewrite <- pow2_succ by lia. apply pow2_le. lia. }
      destruct Hs3 as [Hr Hl]. assert (m' = 0) by nia. 
      unfold m1 in Em1.
      destruct l as [|[| |]]; simpl in Em1; try lia. }
    pose proof (pow2_pos (d - n) ltac:(lia)) as HPdn.
    assert (Hup : Zpos p1 <= 2 ^ (d - n)).
    { rewrite <- Em1. apply (rne_le (Zpos m) n m' _ l); auto; try lia.
      rewrite <- Z.pow_add_r by lia. replace (d - n + n) with d by lia. lia. }
    assert (Hd1 : digits p1 + e1 = D \/
                  (digits p1 + e1 = D + 1 /\ Zpos p1 = 2 ^ (digits p1 - 1))).
    { destruct (Z.eq_dec (Zpos p1) (2 ^ (d - n))) as [Epow|Npow].
      - right. assert (digits p1 = d - n + 1).
        { apply digits_unique. replace (d - n + 1 - 1) with (d - n) by lia.
          rewrite pow2_succ by lia. lia. }
        split; [lia|]. replace (digits p1 - 1) with (d - n) by lia. exact Epow.
      - left. assert (n < d).
        { destruct (Z.eq_dec n d) as [->|]; [|lia].
          rewrite Z.sub_diag in *. simpl in *. lia. }
        assert (digits p1 = d - n); [|lia].
        apply digits_unique. split; [|lia].
        destruct Hs3 as [Hr Hl].
        assert (2 ^ (d - 1) = 2 ^ (d - n - 1) * 2 ^ n).
        { rewrite <- Z.pow_add_r by lia. f_equal. lia. }
        pose proof (pow2_pos (d - n - 1) ltac:(lia)).
        assert (2 ^ (d - n - 1) <= m') by nia. lia. }
    destruct (shr_fexp_renorm p1 e1 D eq_refl Hd1) as (m2 & e2 & -> & Hc2 & Hv2).
    cbn [shr_m].
    assert (Hle2 : (F2R (Zpos m2) e2 <= F2R (Zpos mb) eb)%R).
    { rewrite Hv2, <- HKB. apply F2R_le. lia. }
    pose proof (canonical_exp_le _ _ _ _ Hc2 HcanB Hle2) as He2.
    replace (e2 <=? emax - prec) with true by (symmetry; apply Z.leb_le; lia).
    split; [reflexivity|]. split; [|exact Hle2].
    apply bounded_iff. split; [apply canonical_iff; exact Hc2|lia].
Qed.

Lemma iter_xO (m d : positive) : Zpos (Pos.iter xO m d) = Zpos m * 2 ^ Zpos d.
Proof.
  induction d as [|d IH] using Pos.peano_ind.
  - simpl. lia.
  - rewrite Pos.iter_succ, Pos2Z.inj_xO, IH, Pos2Z.inj_succ.
    unfold Z.succ. rewrite pow2_succ by lia. lia.
Qed.

Lemma shl_align_spec (m : positive) (e e' : Z) :
  snd (shl_align m e e') = Z.min e e' /\
  Zpos (fst (shl_align m e e')) = Zpos m * 2 ^ (e - snd (shl_align m e e')).
Proof.
  unfold shl_align. destruct (e' - e) as [|d|d] eqn:E; cbn [fst snd].
  - split; [lia|]. rewrite Z.sub_diag. simpl. lia.
  - split; [lia|]. rewrite Z.sub_diag. simpl. lia.
  - split; [lia|]. rewrite iter_xO. f_equal. f_equal. lia.
Qed.

Lemma shl_align_F2R (m : positive) (e e' : Z) :
  F2R (Zpos (fst (shl_align m e e'))) (snd (shl_align m e e')) = F2R (Zpos m) e.
Proof.
  destruct (shl_align_spec m e e') as [E1 E2]. rewrite E2, F2R_shift by lia.
  f_equal. lia.
Qed.

Lemma F2R_pos (m : positive) (e : Z) : (0 < F2R (Zpos m) e)%R.
Proof.
  unfold F2R. pose proof (bpow_gt_0 e).
  assert (0 < IZR (Zpos m))%R by (apply IZR_lt; lia). nra.
Qed.

Lemma SF2R_nonneg (x : spec_float) : good prec emax x -> (0 <= SF2R x)%R.
Proof.
  destruct x as [s|s| |[|] m e]; simpl; try lra; try tauto.
  intros _. pose proof (F2R_pos m e). lra.
Qed.

Lemma binary_round_le (s : bool) (m : positive) (e : Z)
    (mb : positive) (eb : Z) :
  bounded prec emax mb eb = true ->
  (F2R (Zpos m) e <= F2R (Zpos mb) eb)%R ->
  match binary_round prec emax s m e with
  | S754_zero s' => s' = s
  | S754_finite s' m2 e2 =>
      s' = s /\ bounded prec emax m2 e2 = true /\
      (F2R (Zpos m2) e2 <= F2R (Zpos mb) eb)%R
  | _ => False
  end.
Proof.
  intros Hb Hle. unfold binary_round. fold (digits m).
  pose proof (shl_align_spec m e (fexp (digits m + e))) as [E1 E2].
  pose proof (shl_align_F2R m e (fexp (digits m + e))) as E3.
  destruct (shl_align m e (fexp (digits m + e))) as [mz ez].
  cbn [fst snd] in E1, E2, E3.
  apply binary_round_aux_le; auto.
  - rewrite (digits_shl m (e - ez) mz) by (lia || auto).
    replace (digits m + (e - ez) + ez) with (digits m + e) by lia. lia.
  - rewrite E3. exact Hle.
Qed.

(** Rounding towards a format never takes a positive value above a
    well-formed float of the format that bounds it. *)
Lemma binary_round_good (m : positive) (e : Z) (B : spec_float) :
  good prec emax B -> (F2R (Zpos m) e <= SF2R B)%R ->
  good prec emax (binary_round prec emax false m e) /\
  (SF2R (binary_round prec emax false m e) <= SF2R B)%R.
Proof.
  intros HB Hle. pose proof (F2R_pos m e) as Hpos.
  destruct B as [sb|sb| |[|] mb eb]; simpl in HB, Hle; try tauto; try lra.
  pose proof (binary_round_le false m e mb eb HB Hle) as H.
  destruct (binary_round prec emax false m e) as [s'|s'| |s' m2 e2];
    try tauto.
  - simpl. pose proof (F2R_pos mb eb). split; [exact I|lra].
  - destruct H as (-> & Hb2 & Hle2). simpl. auto.
Qed.

Lemma binary_round_aux_good (m : positive) (e : Z) (B : spec_float) :
  e <= fexp (digits m + e) ->
  good prec emax B -> (F2R (Zpos m) e <= SF2R B)%R ->
  good prec emax (binary_round_aux prec emax false (Zpos m) e loc_Exact) /\
  (SF2R (binary_round_aux prec emax false (Zpos m) e loc_Exact) <= SF2R B)%R.
Proof.
  intros Hn HB Hle. pose proof (F2R_pos m e) as Hpos.
  destruct B as [sb|sb| |[|] mb eb]; simpl in HB, Hle; try tauto; try lra.
  pose proof (binary_round_aux_le false m e mb eb Hn HB Hle) as H.
  destruct (binary_round_aux prec emax false (Zpos m) e loc_Exact)
    as [s'|s'| |s' m2 e2]; try tauto.
  - simpl. pose proof (F2R_pos mb eb). split; [exact I|lra].
  - destruct H as (-> & Hb2 & Hle2). simpl. auto.
Qed.

Lemma shr_fexp_canonical (mz : positive) (ez : Z) :
  fexp (digits mz + ez) = ez ->
  shr_fexp prec emax (Zpos mz) ez loc_Exact
    = (Build_shr_record (Zpos mz) false false, ez).
Proof.
  intros E. unfold shr_fexp. cbn [Zdigits2 shr_record_of_loc].
  fold (digits mz). rewrite E, Z.sub_diag. reflexivity.
Qed.

(** A value that already fits the format is only re-aligned. *)
Lemma binary_round_exact (s : bool) (m : positive) (e : Z) :
  fexp (digits m + e) <= e ->
  fexp (digits m + e) <= emax - prec ->
  exists mz : positive,
    binary_round prec emax s m e = S754_finite s mz (fexp (digits m + e)) /\
    bounded prec emax mz (fexp (digits m + e)) = true /\
    F2R (Zpos mz) (fexp (digits m + e)) = F2R (Zpos m) e.
Proof.
  intros Hfe Hmax. unfold binary_round. fold (digits m).
  pose proof (shl_align_spec m e (fexp (digits m + e))) as [E1 E2].
  pose proof (shl_align_F2R m e (fexp (digits m + e))) as E3.
  destruct (shl_align m e (fexp (digits m + e))) as [mz ez].
  cbn [fst snd] in E1, E2, E3.
  assert (Ez : ez = fexp (digits m + e)) by lia.
  assert (Hc : fexp (digits mz + ez) = ez).
  { rewrite (digits_shl m (e - ez) mz) by (lia || auto).
    replace (digits m + (e - ez) + ez) with (digits m + e) by lia. lia. }
  exists mz. unfold binary_round_aux.
  rewrite (shr_fexp_canonical mz ez Hc). cbn [shr_m loc_of_shr_record round_nearest_even].
  rewrite (shr_fexp_canonical mz ez Hc). cbn [shr_m].
  replace (ez <=? emax - prec) with true by (symmetry; apply Z.leb_le; lia).
  rewrite <- Ez. repeat split; auto.
  apply bounded_iff. split; [exact Hc|lia].
Qed.

(** On well-formed non-negative floats the comparisons of the format are the
    comparisons of the values. *)
Lemma SFcompare_finite (m1 m2 : positive) (e1 e2 : Z) :
  bounded prec emax m1 e1 = true -> bounded prec emax m2 e2 = true ->
  match SFcompare (S754_finite false m1 e1) (S754_finite false m2 e2) with
  | Some Lt => (F2R (Zpos m1) e1 < F2R (Zpos m2) e2)%R
  | Some Eq => F2R (Zpos m1) e1 = F2R (Zpos m2) e2
  | Some Gt => (F2R (Zpos m2) e2 < F2R (Zpos m1) e1)%R
  | None => False
  end.
Proof.
  intros B1 B2. apply andb_prop in B1 as [C1 _]. apply andb_prop in B2 as [C2 _].
  simpl. destruct (Z.compare_spec e1 e2) as [->|Hlt|Hgt].
  - change (Pos.compare_cont Eq m1 m2) with (Pos.compare m1 m2).
    destruct (Pos.compare_spec m1 m2) as [->|H|H]; auto; apply F2R_lt; lia.
  - apply canonical_exp_lt; auto.
  - apply canonical_exp_lt; auto.
Qed.

Lemma SFltb_good (x y : spec_float) :
  good prec emax x -> good prec emax y ->
  (SFltb x y = true <-> (SF2R x < SF2R y)%R).
Proof.
  intros Hx Hy. unfold SFltb.
  destruct x as [sx|sx| |[|] mx ex]; cbn [good] in Hx; try contradiction;
  destruct y as [sy|sy| |[|] my ey]; cbn [good] in Hy; try contradiction.
  - simpl. split; [discriminate|lra].
  - simpl. pose proof (F2R_pos my ey). tauto.
  - simpl. pose proof (F2R_pos mx ex). split; [discriminate|lra].
  - pose proof (SFcompare_finite mx my ex ey Hx Hy) as H.
    destruct (SFcompare (S754_finite false mx ex) (S754_finite false my ey))
      as [[| |]|]; simpl; split; try discriminate; try tauto; lra.
Qed.

Lemma SFleb_good (x y : spec_float) :
  good prec emax x -> good prec emax y ->
  (SFleb x y = true <-> (SF2R x <= SF2R y)%R).
Proof.
  intros Hx Hy. unfold SFleb.
  destruct x as [sx|sx| |[|] mx ex]; cbn [good] in Hx; try contradiction;
  destruct y as [sy|sy| |[|] my ey]; cbn [good] in Hy; try contradiction.
  - simpl. split; [lra|reflexivity].
  - simpl. pose proof (F2R_pos my ey). split; [lra|reflexivity].
  - simpl. pose proof (F2R_pos mx ex). split; [discriminate|lra].
  - pose proof (SFcompare_finite mx my ex ey Hx Hy) as H.
    destruct (SFcompare (S754_finite false mx ex) (S754_finite false my ey))
      as [[| |]|]; simpl; split; try discriminate; try tauto; lra.
Qed.

End Rounding.

(** ** The [double] and [float] operations of [Update] on non-negative values *)

Lemma prec32_pos : 0 < prec32.
Proof. reflexivity. Qed.

Lemma prec64_pos : 0 < prec64.
Proof. reflexivity. Qed.

(** The literals of the source, and the two floats around [2 * M_PI]. *)
Lemma literals :
  d_one = double_of_uint64 1 /\ d_two = double_of_uint64 2 /\
  d_sixty = double_of_uint64 60 /\ dt_max = double_of_uint64 6 /\
  float_of_double two_pi = S754_finite false 13176795 (-21) /\
  angle_max = SFpred prec32 emax32 (float_of_double two_pi) /\
  dgt (double_of_float (float_of_double two_pi)) two_pi = true /\
  dgt two_pi (double_of_float angle_max) = true.
Proof. repeat split; reflexivity. Qed.

Lemma two_pi_eq : two_pi = S754_finite false 7074237752028440 (-50).
Proof. reflexivity. Qed.

Lemma good64_two_pi : good prec64 emax64 two_pi.
Proof. reflexivity. Qed.

(** Promotion to [double] is exact. *)
Lemma double_of_float_good (a : spec_float) :
  good prec32 emax32 a ->
  good prec64 emax64 (double_of_float a) /\ SF2R (double_of_float a) = SF2R a.
Proof.
  destruct a as [s|s| |[|] m e]; cbn [good double_of_float]; try tauto.
  intros Hb. apply bounded_iff in Hb as [Hc He].
  destruct (binary_round_exact prec64 emax64 false m e) as (mz & E & Hbz & Hv).
  - unfold fexp, emin, prec32, emax32, prec64, emax64 in *. lia.
  - unfold fexp, emin, prec32, emax32, prec64, emax64 in *. lia.
  - rewrite E. cbn [good SF2R cond_Zopp]. auto.
Qed.

(** Storing a [double] into a [float] rounds, and stays below any [float]
    that bounds the value. *)
Lemma float_of_double_good (x B : spec_float) :
  good prec64 emax64 x -> good prec32 emax32 B -> (SF2R x <= SF2R B)%R ->
  good prec32 emax32 (float_of_double x) /\
  (SF2R (float_of_double x) <= SF2R B)%R.
Proof.
  destruct x as [s|s| |[|] m e]; cbn [good float_of_double]; try tauto.
  intros _ HB Hle. apply (binary_round_good _ _ prec32_pos); auto.
Qed.

Lemma dadd_good (x y B : spec_float) :
  good prec64 emax64 x -> good prec64 emax64 y -> good prec64 emax64 B ->
  (SF2R x + SF2R y <= SF2R B)%R ->
  good prec64 emax64 (dadd x y) /\ (SF2R (dadd x y) <= SF2R B)%R.
Proof.
  intros Hx Hy HB Hle.
  pose proof (SF2R_nonneg _ _ _ Hx). pose proof (SF2R_nonneg _ _ _ Hy).
  destruct x as [sx|sx| |[|] mx ex]; cbn [good] in Hx; try contradiction;
  destruct y as [sy|sy| |[|] my ey]; cbn [good] in Hy; try contradiction.
  - destruct sx, sy; simpl in *; split; auto; lra.
  - simpl in *. split; auto; lra.
  - simpl in *. split; auto; lra.
  - unfold dadd, SFadd.
    pose proof (shl_align_spec mx ex (Z.min ex ey)) as [A1 A2].
    pose proof (shl_align_F2R mx ex (Z.min ex ey)) as A3.
    pose proof (shl_align_spec my ey (Z.min ex ey)) as [B1 B2].
    pose proof (shl_align_F2R my ey (Z.min ex ey)) as B3.
    destruct (shl_align mx ex (Z.min ex ey)) as [mx' ex'].
    destruct (shl_align my ey (Z.min ex ey)) as [my' ey'].
    cbn [fst snd cond_Zopp] in *.
    change (Zpos mx' + Zpos my') with (Zpos (mx' + my')).
    cbn [binary_normalize].
    apply (binary_round_good _ _ prec64_pos); auto.
    replace (F2R (Zpos (mx' + my')) (Z.min ex ey))
      with (F2R (Zpos mx') ex' + F2R (Zpos my') ey')%R.
    + rewrite A3, B3. exact Hle.
    + replace ex' with (Z.min ex ey) by lia. replace ey' with (Z.min ex ey) by lia.
      unfold F2R. rewrite Pos2Z.inj_add, plus_IZR. ring.
Qed.

Lemma dsub_good (x y B : spec_float) :
  good prec64 emax64 x -> good prec64 emax64 y -> good prec64 emax64 B ->
  (SF2R y < SF2R x)%R -> (SF2R x - SF2R y <= SF2R B)%R ->
  good prec64 emax64 (dsub x y) /\ (SF2R (dsub x y) <= SF2R B)%R.
Proof.
  intros Hx Hy HB Hlt Hle.
  pose proof (SF2R_nonneg _ _ _ Hx). pose proof (SF2R_nonneg _ _ _ Hy).
  destruct x as [sx|sx| |[|] mx ex]; cbn [good] in Hx; try contradiction;
  destruct y as [sy|sy| |[|] my ey]; cbn [good] in Hy; try contradiction.
  - simpl in *. lra.
  - simpl in *. lra.
  - simpl in *. split; auto; lra.
  - unfold dsub, SFsub.
    pose proof (shl_align_spec mx ex (Z.min ex ey)) as [A1 A2].
    pose proof (shl_align_F2R mx ex (Z.min ex ey)) as A3.
    pose proof (shl_align_spec my ey (Z.min ex ey)) as [B1 B2].
    pose proof (shl_align_F2R my ey (Z.min ex ey)) as B3.
    destruct (shl_align mx ex (Z.min ex ey)) as [mx' ex'].
    destruct (shl_align my ey (Z.min ex ey)) as [my' ey'].
    cbn [fst snd cond_Zopp SF2R] in *.
    replace ex' with (Z.min ex ey) in * by lia.
    replace ey' with (Z.min ex ey) in * by lia.
    assert (Hpos : Zpos my' < Zpos mx').
    { apply (F2R_lt _ _ (Z.min ex ey)). rewrite A3, B3. exact Hlt. }
    destruct (Zpos mx' - Zpos my') as [|p|p] eqn:Ed; try lia.
    cbn [binary_normalize].
    apply (binary_round_good _ _ prec64_pos); auto.
    rewrite <- Ed. unfold F2R in *. rewrite minus_IZR. lra.
Qed.

Lemma dmul_one_good (y B : spec_float) :
  good prec64 emax64 y -> good prec64 emax64 B -> (SF2R y <= SF2R B)%R ->
  good prec64 emax64 (dmul d_one y) /\ (SF2R (dmul d_one y) <= SF2R B)%R.
Proof.
  intros Hy HB Hle.
  destruct y as [sy|sy| |[|] my ey]; cbn [good] in Hy; try contradiction.
  - simpl in *. split; [exact I|exact Hle].
  - unfold dmul, d_one, SFmul. cbn [xorb good SF2R cond_Zopp] in *.
    apply bounded_iff in Hy as [Hc He].
    assert (Ed : digits (4503599627370496 * my) = digits my + 52).
    { apply digits_shl; lia. }
    assert (Ev : F2R (Zpos (4503599627370496 * my)) (-52 + ey) = F2R (Zpos my) ey).
    { replace (Zpos (4503599627370496 * my)) with (Zpos my * 2 ^ 52) by lia.
      rewrite F2R_shift by lia. f_equal. lia. }
    apply (binary_round_aux_good _ _ prec64_pos).
    + rewrite Ed. replace (digits my + 52 + (-52 + ey)) with (digits my + ey) by lia.
      lia.
    + exact HB.
    + rewrite Ev. exact Hle.
Qed.

(** ** The angle invariant *)

(** No [float] lies strictly between [angle_max] and [2 * M_PI]. *)
Lemma angle_gap (a : spec_float) :
  good prec32 emax32 a -> (SF2R a <= SF2R two_pi)%R ->
  (SF2R a <= SF2R angle_max)%R.
Proof.
  rewrite two_pi_eq.
  destruct a as [s|s| |[|] m e]; cbn [good]; try contradiction.
  - intros _ _. unfold angle_max, SF2R, cond_Zopp, F2R, bpow. simpl. lra.
  - intros Hb Hle. apply bounded_iff in Hb as [Hc He].
    cbn [SF2R cond_Zopp angle_max] in *.
    pose proof (F2R_digits m e) as [Hl Hu].
    unfold fexp, emin, prec32, emax32 in Hc.
    destruct (Z_lt_le_dec e (-21)) as [Hlt|Hge].
    + pose proof (bpow_le (digits m + e) 2 ltac:(lia)) as H2.
      assert (bpow 2 <= F2R 13176794 (-21))%R
        by (unfold F2R, bpow; simpl; lra).
      lra.
    + destruct (Z.eq_dec e (-21)) as [->|Hne].
      * apply F2R_le.
        assert (Zpos m * 2 ^ 29 <= 7074237752028440); [|lia].
        apply (F2R_le _ _ (-50)). rewrite F2R_shift by lia. exact Hle.
      * exfalso. pose proof (bpow_le 3 (digits m + e - 1) ltac:(lia)) as H3.
        assert (F2R 7074237752028440 (-50) < bpow 3)%R
          by (unfold F2R, bpow; simpl; lra).
        lra.
Qed.

Lemma add_angle_inv (a dt : spec_float) :
  angle_inv a -> good prec64 emax64 dt -> (SF2R dt <= SF2R dt_max)%R ->
  good prec32 emax32 (add_angle a dt) /\
  (SF2R (add_angle a dt) <= SF2R (S754_finite false 13107200 (-20)))%R.
Proof.
  intros [Ha Hmax] Hdt Hle. unfold add_angle.
  destruct (double_of_float_good a Ha) as [Ha64 Ea].
  destruct (dmul_one_good dt dt_max Hdt eq_refl Hle) as [Hp Hple].
  apply float_of_double_good; [|reflexivity|].
  - apply (dadd_good _ _ (S754_finite false 7036874417766400 (-49))); auto.
    + reflexivity.
    + rewrite Ea. unfold angle_max, dt_max, SF2R, cond_Zopp, F2R, bpow in *.
      simpl in *. lra.
  - apply (Rle_trans _ (SF2R (S754_finite false 7036874417766400 (-49)))).
    + apply dadd_good; auto; [reflexivity|].
      rewrite Ea. unfold angle_max, dt_max, SF2R, cond_Zopp, F2R, bpow in *.
      simpl in *. lra.
    + unfold SF2R, cond_Zopp, F2R, bpow. simpl. lra.
Qed.

Lemma wrap_angle_inv (a1 : spec_float) :
  good prec32 emax32 a1 ->
  (SF2R a1 <= SF2R (S754_finite false 13107200 (-20)))%R ->
  angle_inv (wrap_angle a1).
Proof.
  intros Ha Hle. unfold wrap_angle, wraps, dgt.
  destruct (double_of_float_good a1 Ha) as [Ha64 Ea].
  destruct (SFltb two_pi (double_of_float a1)) eqn:E.
  - apply (SFltb_good prec64 emax64 _ _ good64_two_pi Ha64) in E.
    assert (Hd : good prec64 emax64 (dsub (double_of_float a1) two_pi) /\
                 (SF2R (dsub (double_of_float a1) two_pi)
                  <= SF2R (S754_finite false 7036874417766400 (-50)))%R).
    { apply dsub_good; auto; [apply good64_two_pi|reflexivity|].
      rewrite Ea. rewrite two_pi_eq in *.
      unfold SF2R, cond_Zopp, F2R, bpow in *. simpl in *. lra. }
    destruct Hd as [Hd1 Hd2].
    destruct (float_of_double_good _ (S754_finite false 13107200 (-21)) Hd1 eq_refl)
      as [Hf1 Hf2].
    { eapply Rle_trans; [exact Hd2|].
      unfold SF2R, cond_Zopp, F2R, bpow. simpl. lra. }
    split; [exact Hf1|]. eapply Rle_trans; [exact Hf2|].
    unfold angle_max, SF2R, cond_Zopp, F2R, bpow. simpl. lra.
  - split; [exact Ha|]. apply angle_gap; auto.
    rewrite <- Ea.
    destruct (Rle_or_lt (SF2R (double_of_float a1)) (SF2R two_pi)) as [|Hlt]; auto.
    apply (SFltb_good prec64 emax64 _ _ good64_two_pi Ha64) in Hlt. congruence.
Qed.

Lemma angle_inv_step (a dt : spec_float) :
  angle_inv a -> good prec64 emax64 dt -> (SF2R dt <= SF2R dt_max)%R ->
  angle_inv (wrap_angle (add_angle a dt)).
Proof.
  intros Ha Hdt Hle. destruct (add_angle_inv a dt Ha Hdt Hle) as [H1 H2].
  apply wrap_angle_inv; auto.
Qed.

(** ** Update: the event loop *)

Lemma handle_event_spec (scene : Scene) (event : SDL_Event) :
  handle_event scene event
  = if quit_event event then set_isRunning scene false else scene.
Proof.
  unfold handle_event, quit_event.
  destruct (ev_type event =? SDL_QUIT) eqn:Eq; [reflexivity|].
  destruct (ev_type event =? SDL_KEYDOWN); [|reflexivity].
  destruct (key_sym event =? SDLK_q); reflexivity.
Qed.

(** [poll_events] is the [while (SDL_PollEvent(&event))] loop. *)
Lemma poll_events_PollEvent (scene : Scene) (pending : list SDL_Event) :
  poll_events scene pending
  = match SDL_PollEvent pending with
    | None => (scene, pending)
    | Some (event, rest) => poll_events (handle_event scene event) rest
    end.
Proof. destruct pending; reflexivity. Qed.

Lemma poll_events_fold (pending : list SDL_Event) :
  forall scene : Scene,
  poll_events scene pending = (fold_left handle_event pending scene, []).
Proof.
  induction pending as [|event rest IH]; intros scene; simpl; auto.
Qed.

Lemma handle_event_frame (scene : Scene) (event : SDL_Event) :
  program (handle_event scene event) = program scene /\
  vertexArray (handle_event scene event) = vertexArray scene /\
  vertexCount (handle_event scene event) = vertexCount scene /\
  angleShaderParameter (handle_event scene event) = angleShaderParameter scene /\
  angle (handle_event scene event) = angle scene.
Proof.
  rewrite handle_event_spec. destruct (quit_event event); simpl; auto.
Qed.

Lemma poll_events_frame (pending : list SDL_Event) :
  forall scene : Scene,
  program (fst (poll_events scene pending)) = program scene /\
  vertexArray (fst (poll_events scene pending)) = vertexArray scene /\
  vertexCount (fst (poll_events scene pending)) = vertexCount scene /\
  angleShaderParameter (fst (poll_events scene pending))
    = angleShaderParameter scene /\
  angle (fst (poll_events scene pending)) = angle scene.
Proof.
  induction pending as [|event rest IH]; intros scene; simpl; auto.
  destruct (IH (handle_event scene event)) as (H1 & H2 & H3 & H4 & H5).
  destruct (handle_event_frame scene event) as (G1 & G2 & G3 & G4 & G5).
  repeat split; congruence.
Qed.

Lemma poll_events_isRunning (pending : list SDL_Event) :
  forall scene : Scene,
  isRunning (fst (poll_events scene pending))
  = isRunning scene && negb (existsb quit_event pending).
Proof.
  induction pending as [|event rest IH]; intros scene; simpl.
  - rewrite andb_true_r. reflexivity.
  - rewrite IH, handle_event_spec.
    destruct (quit_event event); simpl.
    + rewrite andb_false_r. reflexivity.
    + reflexivity.
Qed.

Lemma Update_unfold (scene : Scene) (pending : list SDL_Event) (dt : spec_float) :
  Update scene pending dt
  = (set_angle (fst (poll_events scene pending))
       (wrap_angle (add_angle (angle scene) dt)), []).
Proof.
  unfold Update. destruct (poll_events_frame pending scene) as (_ & _ & _ & _ & Ha).
  rewrite poll_events_fold in *. simpl in *. rewrite Ha. reflexivity.
Qed.

Lemma Update_isRunning (scene : Scene) (pending : list SDL_Event) (dt : spec_float) :
  isRunning (fst (Update scene pending dt))
  = isRunning scene && negb (existsb quit_event pending).
Proof. rewrite Update_unfold. simpl. apply poll_events_isRunning. Qed.

Lemma Update_angle (scene : Scene) (pending : list SDL_Event) (dt : spec_float) :
  angle (fst (Update scene pending dt)) = wrap_angle (add_angle (angle scene) dt).
Proof. rewrite Update_unfold. reflexivity. Qed.

(** Multiplying by the rate [1.0] is exact: [angle += 1.0 * dt] adds [dt]. *)
Lemma dmul_one_exact (dt : spec_float) :
  valid_binary prec64 emax64 dt = true -> dmul d_one dt = dt.
Proof.
  destruct dt as [s|s| |s m e]; try reflexivity.
  cbn [valid_binary]. intros Hb. apply bounded_iff in Hb as [Hc He].
  unfold dmul, d_one, SFmul. cbn [xorb].
  assert (Ed : digits (4503599627370496 * m) = digits m + 52)
    by (apply digits_shl; lia).
  unfold binary_round_aux, shr_fexp at 1. cbn [Zdigits2 shr_record_of_loc].
  fold (digits (4503599627370496 * m)). rewrite Ed.
  replace (digits m + 52 + (-52 + e)) with (digits m + e) by lia.
  rewrite Hc. replace (e - (-52 + e)) with 52 by lia.
  pose proof (shr_inbetween (Zpos (4503599627370496 * m)) (-52 + e) 52
                ltac:(lia) ltac:(lia)) as (Hs1 & Hs2 & [Hr Hl]).
  destruct (shr {| shr_m := Zpos (4503599627370496 * m); shr_r := false;
                   shr_s := false |} (-52 + e) 52) as [mrs' e'].
  cbn [fst snd] in *. subst e'. replace (-52 + e + 52) with e by lia.
  change (2 ^ 52) with 4503599627370496 in *.
  assert (Em : shr_m mrs' = Zpos m) by lia.
  rewrite Em in *.
  assert (El : round_nearest_even (Zpos m) (loc_of_shr_record mrs') = Zpos m).
  { destruct (loc_of_shr_record mrs') as [|[| |]]; simpl; auto; lia. }
  rewrite El, (shr_fexp_canonical _ _ m e Hc). cbn [shr_m].
  replace (e <=? emax64 - prec64) with true by (symmetry; apply Z.leb_le; lia).
  reflexivity.
Qed.

(** ** The claims about [Update] and [Scene] *)

(** C6. Each [Update] call drains every pending event: the queue it leaves is
    empty and the scene is the one obtained by handling the events in order;
    a quit request clears [isRunning], a key press of the quit key clears
    [isRunning], and any other event leaves the scene as it was. *)
Theorem Update_drains_and_handles_events :
  (forall (scene : Scene) (pending : list SDL_Event) (dt : spec_float),
      snd (Update scene pending dt) = [] /\
      fst (Update scene pending dt)
      = set_angle (fold_left handle_event pending scene)
                  (angle (fst (Update scene pending dt)))) /\
  (forall (scene : Scene) (sym : Z),
      isRunning (handle_event scene (mkEvent SDL_QUIT sym)) = false) /\
  (forall scene : Scene,
      isRunning (handle_event scene (mkEvent SDL_KEYDOWN SDLK_q)) = false) /\
  (forall (scene : Scene) (event : SDL_Event),
      handle_event scene event
      = if quit_event event then set_isRunning scene false else scene).
Proof.
  split; [|split; [|split]].
  - intros scene pending dt. rewrite Update_unfold, poll_events_fold. auto.
  - reflexivity.
  - reflexivity.
  - apply handle_event_spec.
Qed.

(** C9. [Update] writes only [isRunning] and [angle]: [program],
    [vertexArray], [vertexCount] and [angleShaderParameter] are the same
    after every call, for every pending events and every [dt]. *)
Theorem Update_frame (scene : Scene) (pending : list SDL_Event) (dt : spec_float) :
  program (fst (Update scene pending dt)) = program scene /\
  vertexArray (fst (Update scene pending dt)) = vertexArray scene /\
  vertexCount (fst (Update scene pending dt)) = vertexCount scene /\
  angleShaderParameter (fst (Update scene pending dt))
    = angleShaderParameter scene.
Proof.
  rewrite Update_unfold. simpl.
  destruct (poll_events_frame pending scene) as (H1 & H2 & H3 & H4 & _). auto.
Qed.

(** C10. [isRunning] only ever goes from true to false: the constructor
    sets it to true, and an [Update] call that starts with it false ends with
    it false, whatever the events. *)
Theorem isRunning_monotone :
  (forall (shaderProgram vertexArray' N : Z) (sizeofT : positive)
          (vertexSize angleParameter : Z) (scene : Scene),
      Scene_ctor shaderProgram vertexArray' N sizeofT vertexSize angleParameter
        = Some scene ->
      isRunning scene = true) /\
  (forall (scene : Scene) (pending : list SDL_Event) (dt : spec_float),
      isRunning scene = false ->
      isRunning (fst (Update scene pending dt)) = false).
Proof.
  split.
  - intros p va N sz vs ap scene. unfold Scene_ctor.
    destruct (vs =? 0); [discriminate|]. intros [= <-]. reflexivity.
  - intros scene pending dt H. rewrite Update_isRunning, H. reflexivity.
Qed.

Lemma isRunning_monotone_witness :
  (Scene_ctor 1 1 8 4 2 0 = Some example_scene /\
   isRunning (set_isRunning example_scene false) = false) /\
  isRunning example_scene = true /\
  isRunning (fst (Update (set_isRunning example_scene false)
                         [mkEvent SDL_KEYDOWN 97] secondsPerUpdate)) = false.
Proof.
  split; [split; reflexivity|]. split.
  - exact (proj1 isRunning_monotone 1 1 8 4%positive 2 0 example_scene eq_refl).
  - exact (proj2 isRunning_monotone (set_isRunning example_scene false)
             [mkEvent SDL_KEYDOWN 97] secondsPerUpdate eq_refl).
Defined.

(** C4. The new angle of an [Update] call is the old angle plus [1.0 * dt]
    (computed in [double], stored as [float]), less [2 * M_PI] once exactly when
    that sum exceeds [2 * M_PI]; the pending events play no part. One
    subtraction is not a reduction modulo [2 * M_PI]: with [dt = 100] the
    result is still above [2 * M_PI]. *)
Theorem Update_angle_single_wrap :
  (forall (scene : Scene) (pending : list SDL_Event) (dt : spec_float),
      let sum := float_of_double
                   (dadd (double_of_float (angle scene)) (dmul d_one dt)) in
      angle (fst (Update scene pending dt))
      = if dgt (double_of_float sum) two_pi
        then float_of_double (dsub (double_of_float sum) two_pi)
        else sum) /\
  dgt (double_of_float (angle (fst (Update example_scene [] d_hundred))))
      two_pi = true.
Proof.
  split.
  - intros scene pending dt. rewrite Update_angle. reflexivity.
  - vm_compute. reflexivity.
Qed.

(** C8, as the code has it. The constructor computes
    [vertexCount = sizeof(vertices) / sizeof(vertices[0]) / vertexSize],
    which is the integer quotient of the number of floats by [vertexSize]
    (4 for the quad of [main]); it makes no divisibility check, and any
    non-zero [vertexSize] yields a scene. *)
Theorem Scene_ctor_vertexCount :
  (forall (shaderProgram vertexArray' N : Z) (sizeofT : positive)
          (vertexSize angleParameter : Z),
      vertexSize <> 0 ->
      exists scene : Scene,
        Scene_ctor shaderProgram vertexArray' N sizeofT vertexSize angleParameter
          = Some scene /\
        vertexCount scene = N / vertexSize) /\
  (forall shaderProgram vertexArray' angleParameter : Z,
      exists scene : Scene,
        main_scene shaderProgram vertexArray' angleParameter = Some scene /\
        vertexCount scene = 4).
Proof.
  split.
  - intros p va N sz vs ap Hvs. unfold Scene_ctor.
    destruct (Z.eqb_spec vs 0) as [|_]; [contradiction|].
    eexists. split; [reflexivity|]. simpl. unfold sizeof_array.
    rewrite Z.div_mul by lia. reflexivity.
  - intros p va ap. eexists. split; reflexivity.
Qed.

Lemma Scene_ctor_vertexCount_witness :
  2 <> 0 /\
  exists scene : Scene,
    Scene_ctor 1 1 8 4 2 0 = Some scene /\ vertexCount scene = 8 / 2.
Proof.
  split; [lia|]. apply (proj1 Scene_ctor_vertexCount 1 1 8 4%positive 2 0). lia.
Defined.

(** C8 as stated fails: 7 floats with 2 per vertex are accepted, and the odd
    float is dropped. *)
Lemma Scene_ctor_accepts_partial_vertex :
  7 mod 2 <> 0 /\
  Scene_ctor 1 1 7 4 2 0 = Some (mkScene true 1 1 3 0 pzero).
Proof. split; [discriminate|reflexivity]. Qed.

(** ** The angle over a sequence of [Update] calls *)

Lemma Updates_angle (pendings : list (list SDL_Event)) (dt : spec_float) :
  forall scene : Scene,
  angle (Updates scene pendings dt)
  = angle_after (length pendings) (angle scene) dt.
Proof.
  induction pendings as [|pending rest IH]; intros scene; simpl; auto.
  rewrite IH, Update_angle. reflexivity.
Qed.

Lemma wrap_history_angle (pendings : list (list SDL_Event)) (dt : spec_float) :
  forall scene : Scene,
  wrap_history scene pendings dt
  = wraps_during (length pendings) (angle scene) dt.
Proof.
  induction pendings as [|pending rest IH]; intros scene; simpl; auto.
  rewrite IH, Update_angle. reflexivity.
Qed.

Lemma angle_after_inv (n : nat) (dt : spec_float) :
  good prec64 emax64 dt -> (SF2R dt <= SF2R dt_max)%R ->
  forall a : spec_float, angle_inv a -> angle_inv (angle_after n a dt).
Proof.
  intros Hdt Hle. induction n as [|n IH]; intros a Ha; simpl; auto.
  apply IH, angle_inv_step; auto.
Qed.

Lemma good_of_range (dt : spec_float) :
  valid_binary prec64 emax64 dt = true ->
  SFleb pzero dt = true -> SFleb dt dt_max = true ->
  good prec64 emax64 dt /\ (SF2R dt <= SF2R dt_max)%R.
Proof.
  intros Hv H0 Hmax.
  assert (Hg : good prec64 emax64 dt).
  { destruct dt as [s|[|]| |[|] m e]; simpl in *; auto; discriminate. }
  split; auto.
  apply (SFleb_good prec64 emax64 dt dt_max Hg eq_refl). exact Hmax.
Qed.

Lemma angle_inv_range (a : spec_float) :
  angle_inv a ->
  SFleb pzero a = true /\ SFltb (double_of_float a) two_pi = true.
Proof.
  intros [Ha Hmax]. split.
  - destruct a as [s|s| |[|] m e]; cbn [good] in Ha; try contradiction;
      reflexivity.
  - destruct (double_of_float_good a Ha) as [Ha64 Ea].
    apply (SFltb_good prec64 emax64 _ _ Ha64 good64_two_pi).
    rewrite Ea, two_pi_eq.
    unfold angle_max, SF2R, cond_Zopp, F2R, bpow in *. simpl in *. lra.
Qed.

(** [M_PI] is the binary64 value nearest to 3.14159265358979323846 (within
    half a unit in the last place, 2^-52), and lies below the real number pi. *)
Lemma M_PI_nearest :
  (Rabs (SF2R M_PI - 314159265358979323846 / 100000000000000000000)
   <= bpow (-52))%R.
Proof.
  unfold M_PI, SF2R, cond_Zopp, F2R, bpow. simpl.
  apply Rabs_le. lra.
Qed.

Lemma M_PI_below_PI : (SF2R M_PI < PI)%R.
Proof.
  pose proof (PI_2_3_7_ineq 7) as [H _].
  change (S (2 * 7)) with 15%nat in H.
  unfold sum_f_R0, tg_alt, PI_2_3_7_tg, Ratan_seq in H. simpl in H.
  unfold M_PI, SF2R, cond_Zopp, F2R, bpow. simpl. lra.
Qed.

Lemma two_pi_below_2PI : (SF2R two_pi < 2 * PI)%R.
Proof.
  pose proof M_PI_below_PI as H. rewrite two_pi_eq.
  unfold M_PI, SF2R, cond_Zopp, F2R, bpow in *. simpl in *. lra.
Qed.

Lemma angle_inv_real (a : spec_float) :
  angle_inv a -> (0 <= SF2R a < 2 * PI)%R.
Proof.
  intros [Ha Hmax]. pose proof (SF2R_nonneg _ _ _ Ha) as H0.
  pose proof two_pi_below_2PI as H2. rewrite two_pi_eq in H2.
  unfold angle_max, SF2R, cond_Zopp, F2R, bpow in *. simpl in *. lra.
Qed.

(** C3. Starting from angle 0, after any number of [Update] calls with the
    same [dt], [0 <= dt <= 6], and any pending events, the angle is at least 0
    and strictly below [2 * M_PI], as the program compares it; its real value
    lies in the half-open interval from 0 to 2 pi. *)
Theorem angle_in_range (scene : Scene) (pendings : list (list SDL_Event))
    (dt : spec_float) :
  valid_binary prec64 emax64 dt = true ->
  SFleb pzero dt = true -> SFleb dt dt_max = true ->
  angle scene = pzero ->
  SFleb pzero (angle (Updates scene pendings dt)) = true /\
  dgt two_pi (double_of_float (angle (Updates scene pendings dt))) = true /\
  (0 <= SF2R (angle (Updates scene pendings dt)) < 2 * PI)%R.
Proof.
  intros Hv H0 Hmax Ha. destruct (good_of_range dt Hv H0 Hmax) as [Hg Hle].
  assert (Hinv : angle_inv (angle (Updates scene pendings dt))).
  { rewrite Updates_angle, Ha.
    apply angle_after_inv; auto. split; [exact I|].
    unfold pzero, angle_max, SF2R, cond_Zopp, F2R, bpow. simpl. lra. }
  destruct (angle_inv_range _ Hinv) as [H1 H2].
  split; [exact H1|]. split; [exact H2|]. apply angle_inv_real, Hinv.
Qed.

Lemma angle_in_range_witness :
  valid_binary prec64 emax64 secondsPerUpdate = true /\
  SFleb pzero secondsPerUpdate = true /\
  SFleb secondsPerUpdate dt_max = true /\
  angle example_scene = pzero /\
  SFleb pzero (angle (Updates example_scene [[]; [quit_request]; []]
                              secondsPerUpdate)) = true /\
  dgt two_pi (double_of_float
                (angle (Updates example_scene [[]; [quit_request]; []]
                                secondsPerUpdate))) = true /\
  (0 <= SF2R (angle (Updates example_scene [[]; [quit_request]; []]
                             secondsPerUpdate)) < 2 * PI)%R.
Proof.
  do 4 (split; [reflexivity|]).
  apply (angle_in_range example_scene [[]; [quit_request]; []] secondsPerUpdate);
    reflexivity.
Defined.

(** C7, as the code has it. From angle 0 with [dt = 1/60], the first 376
    calls do not wrap and the 377th does; the angle is then
    12037871 * 2^-36, about 1.75e-4: within 2e-4 of 0 but not within 1e-4. *)
Theorem angle_after_377_updates (scene : Scene)
    (pendings : list (list SDL_Event)) :
  angle scene = pzero -> length pendings = 377%nat ->
  wrap_history scene pendings secondsPerUpdate
    = repeat false 376 ++ [true] /\
  angle (Updates scene pendings secondsPerUpdate)
    = S754_finite false 12037871 (-36) /\
  within (2 / 10000) (angle (Updates scene pendings secondsPerUpdate)) /\
  ~ within (1 / 10000) (angle (Updates scene pendings secondsPerUpdate)).
Proof.
  intros Ha Hn. rewrite wrap_history_angle, Updates_angle, Ha, Hn.
  assert (E : angle_after 377 pzero secondsPerUpdate
              = S754_finite false 12037871 (-36)) by (vm_compute; reflexivity).
  rewrite E. split; [vm_compute; reflexivity|]. split; [reflexivity|].
  unfold within, SF2R, cond_Zopp, F2R, bpow. simpl.
  rewrite Rminus_0_r, Rabs_pos_eq by lra. lra.
Qed.

Lemma angle_after_377_updates_witness :
  angle example_scene = pzero /\
  length (repeat (@nil SDL_Event) 377) = 377%nat /\
  wrap_history example_scene (repeat [] 377) secondsPerUpdate
    = repeat false 376 ++ [true] /\
  angle (Updates example_scene (repeat [] 377) secondsPerUpdate)
    = S754_finite false 12037871 (-36) /\
  within (2 / 10000)
         (angle (Updates example_scene (repeat [] 377) secondsPerUpdate)) /\
  ~ within (1 / 10000)
           (angle (Updates example_scene (repeat [] 377) secondsPerUpdate)).
Proof.
  split; [reflexivity|]. split; [apply repeat_length|].
  apply (angle_after_377_updates example_scene (repeat [] 377));
    [reflexivity|apply repeat_length].
Defined.

(** C7 as stated fails: after 377 calls the angle is farther than 1e-4
    from 0. *)
Lemma angle_after_377_not_within_1e_4 :
  ~ within (1 / 10000)
           (angle (Updates example_scene (repeat [] 377) secondsPerUpdate)).
Proof.
  assert (E : angle (Updates example_scene (repeat [] 377) secondsPerUpdate)
              = S754_finite false 12037871 (-36)) by (vm_compute; reflexivity).
  rewrite E. unfold within, SF2R, cond_Zopp, F2R, bpow. simpl.
  rewrite Rminus_0_r, Rabs_pos_eq by lra. lra.
Qed.

(** ** GameLoop *)

Arguments dadd : simpl never.
Arguments dsub : simpl never.
Arguments ddiv : simpl never.
Arguments dgt : simpl never.
Arguments double_of_uint64 : simpl never.
Arguments elapsed : simpl never.
Arguments secondsPerUpdate : simpl never.
Arguments Update : simpl never.

Lemma draws_app (a b : list Call) : draws (a ++ b) = (draws a + draws b)%nat.
Proof. unfold draws. rewrite filter_app, length_app. reflexivity. Qed.

Lemma loop_body_calls (ticksPerSecond : spec_float) (st : LoopState) (f : Frame) :
  updates (snd (loop_body ticksPerSecond st f))
    = (if update_due ticksPerSecond st f then 1%nat else 0%nat) /\
  draws (snd (loop_body ticksPerSecond st f)) = 1%nat.
Proof.
  unfold loop_body, update_due.
  destruct (dgt _ secondsPerUpdate).
  - destruct (Update (scene_of st) (pending_of st ++ arrivals f) secondsPerUpdate).
    split; reflexivity.
  - split; reflexivity.
Qed.

Lemma loop_from_calls (ticksPerSecond : spec_float) (frames : list Frame) :
  forall st : LoopState,
  Forall (fun calls => (updates calls <= 1)%nat /\ draws calls = 1%nat)
         (iterations (loop_from ticksPerSecond st frames)).
Proof.
  induction frames as [|f rest IH]; intros st; cbn [loop_from].
  - destruct (isRunning (scene_of st)); constructor.
  - destruct (isRunning (scene_of st)); [|constructor].
    pose proof (loop_body_calls ticksPerSecond st f) as [Hu Hd].
    destruct (loop_body ticksPerSecond st f) as [st1 calls].
    cbn [iterations fst snd] in *.
    constructor; [|apply IH]. split; [|exact Hd].
    rewrite Hu. destruct (update_due ticksPerSecond st f); lia.
Qed.

Lemma draws_concat (its : list (list Call)) :
  Forall (fun calls => (updates calls <= 1)%nat /\ draws calls = 1%nat) its ->
  draws (concat its) = length its.
Proof.
  induction 1 as [|calls rest [_ Hd] _ IH]; simpl; auto.
  rewrite draws_app, Hd, IH. reflexivity.
Qed.

(** C2. In every iteration of [GameLoop], whatever [accumulatedTime] is,
    [Update] is called at most once and [Draw] exactly once, whether or not
    [Update] ran. With 100 s accumulated a single [Update] runs and the
    accumulated time left is still above [secondsPerUpdate]. *)
Theorem one_Draw_at_most_one_Update :
  (forall (ticksPerSecond : spec_float) (st : LoopState) (f : Frame),
      (updates (snd (loop_body ticksPerSecond st f)) <= 1)%nat /\
      draws (snd (loop_body ticksPerSecond st f)) = 1%nat) /\
  (forall (perfFrequency tick0 : Z) (frames : list Frame) (scene : Scene),
      Forall (fun calls => (updates calls <= 1)%nat /\ draws calls = 1%nat)
             (iterations (GameLoop perfFrequency tick0 frames scene))) /\
  (let st := mkLoop example_scene pzero d_hundred [] in
   let r := loop_body (double_of_uint64 60) st (mkFrame 1 []) in
   updates (snd r) = 1%nat /\ draws (snd r) = 1%nat /\
   dgt (accumulatedTime (fst r)) secondsPerUpdate = true).
Proof.
  split; [|split].
  - intros tps st f. destruct (loop_body_calls tps st f) as [Hu Hd].
    split; [|exact Hd]. rewrite Hu. destruct (update_due tps st f); lia.
  - intros. apply loop_from_calls.
  - vm_compute. auto.
Qed.

Lemma spu_first : dadd pzero secondsPerUpdate = secondsPerUpdate.
Proof. reflexivity. Qed.

Lemma spu_not_due : dgt secondsPerUpdate secondsPerUpdate = false.
Proof. reflexivity. Qed.

Lemma spu_due : dgt (dadd secondsPerUpdate secondsPerUpdate) secondsPerUpdate = true.
Proof. reflexivity. Qed.

Lemma spu_left :
  dsub (dadd secondsPerUpdate secondsPerUpdate) secondsPerUpdate = secondsPerUpdate.
Proof. reflexivity. Qed.

Lemma loop_from_steady (ticksPerSecond : spec_float) (frames : list Frame) :
  forall st : LoopState,
  accumulatedTime st = secondsPerUpdate ->
  steady_clock ticksPerSecond (previousTickCount st) frames ->
  Forall (fun calls => updates calls = 1%nat /\ draws calls = 1%nat)
         (iterations (loop_from ticksPerSecond st frames)).
Proof.
  induction frames as [|f rest IH]; intros st Hacc Hclock; cbn [loop_from].
  - destruct (isRunning (scene_of st)); constructor.
  - destruct (isRunning (scene_of st)); [|constructor].
    destruct Hclock as [He Hrest]. unfold loop_body.
    rewrite He, Hacc, spu_due, spu_left.
    destruct (Update (scene_of st) (pending_of st ++ arrivals f) secondsPerUpdate)
      as [scene1 pending1].
    cbn [iterations]. constructor; [split; reflexivity|]. apply IH; auto.
Qed.

Lemma GameLoop_steady (perfFrequency tick0 : Z) (frames : list Frame)
    (scene : Scene) :
  steady_clock (double_of_uint64 perfFrequency) (double_of_uint64 tick0) frames ->
  match iterations (GameLoop perfFrequency tick0 frames scene) with
  | [] => True
  | first :: later =>
      updates first = 0%nat /\ draws first = 1%nat /\
      Forall (fun calls => updates calls = 1%nat /\ draws calls = 1%nat) later
  end.
Proof.
  intros Hclock. unfold GameLoop.
  destruct frames as [|f rest]; cbn [loop_from scene_of].
  - destruct (isRunning scene); exact I.
  - destruct (isRunning scene); [|exact I].
    destruct Hclock as [He Hrest]. unfold loop_body.
    cbn [accumulatedTime previousTickCount scene_of pending_of].
    rewrite He, spu_first, spu_not_due. cbn [iterations].
    split; [reflexivity|]. split; [reflexivity|].
    apply loop_from_steady; auto.
Qed.

(** C1, as the code has it. When every elapsed time the loop computes is
    exactly [secondsPerUpdate], the first iteration calls [Draw] once and
    [Update] not at all (the accumulated time equals [secondsPerUpdate] and
    the test is strict); every later iteration calls [Update] once and [Draw]
    once. *)
Theorem GameLoop_steady_clock (perfFrequency tick0 : Z) (frames : list Frame)
    (scene : Scene) (i : nat) (calls : list Call) :
  steady_clock (double_of_uint64 perfFrequency) (double_of_uint64 tick0) frames ->
  nth_error (iterations (GameLoop perfFrequency tick0 frames scene)) i
    = Some calls ->
  updates calls = (if Nat.eqb i 0 then 0%nat else 1%nat) /\ draws calls = 1%nat.
Proof.
  intros Hclock Hi. pose proof (GameLoop_steady _ _ _ scene Hclock) as H.
  destruct (iterations (GameLoop perfFrequency tick0 frames scene))
    as [|first later]; [destruct i; discriminate|].
  destruct H as (Hu & Hd & Hlater). destruct i as [|i]; simpl in *.
  - injection Hi as <-. auto.
  - rewrite Forall_forall in Hlater. apply Hlater.
    apply nth_error_In with i. exact Hi.
Qed.

Lemma GameLoop_steady_clock_witness :
  steady_clock (double_of_uint64 60) (double_of_uint64 0) (script 1 10 0) /\
  nth_error (iterations (GameLoop 60 0 (script 1 10 0) example_scene)) 3
    = Some example_calls /\
  updates example_calls = (if Nat.eqb 3 0 then 0%nat else 1%nat) /\
  draws example_calls = 1%nat.
Proof.
  assert (Hclock : steady_clock (double_of_uint64 60) (double_of_uint64 0)
                                (script 1 10 0))
    by (vm_compute; repeat split; reflexivity).
  split; [exact Hclock|]. split; [vm_compute; reflexivity|].
  apply (GameLoop_steady_clock 60 0 (script 1 10 0) example_scene 3 example_calls);
    [exact Hclock|vm_compute; reflexivity].
Defined.

(** C1 as stated fails: on a 60 Hz counter advancing one tick per
    iteration, the first iteration calls [Draw] without any [Update]. *)
Lemma GameLoop_steady_clock_first_iteration :
  steady_clock (double_of_uint64 60) (double_of_uint64 0) (script 1 10 0) /\
  exists calls : list Call,
    nth_error (iterations (GameLoop 60 0 (script 1 10 0) example_scene)) 0
      = Some calls /\
    updates calls = 0%nat /\ draws calls = 1%nat.
Proof.
  split; [vm_compute; repeat split; reflexivity|].
  eexists. split; [vm_compute; reflexivity|]. split; reflexivity.
Qed.

(** *** Termination on a quit event *)

Lemma loop_from_stopped (ticksPerSecond : spec_float) (st : LoopState)
    (frames : list Frame) :
  isRunning (scene_of st) = false ->
  loop_from ticksPerSecond st frames = mkRun Exited st [] frames.
Proof. intros H. destruct frames; cbn [loop_from]; rewrite H; reflexivity. Qed.

Lemma loop_from_still_running (ticksPerSecond : spec_float) (pre : list Frame) :
  forall st : LoopState,
  outcome (loop_from ticksPerSecond st pre) = StillRunning ->
  isRunning (scene_of (final (loop_from ticksPerSecond st pre))) = true /\
  length (iterations (loop_from ticksPerSecond st pre)) = length pre.
Proof.
  induction pre as [|f rest IH]; intros st; cbn [loop_from].
  - destruct (isRunning (scene_of st)) eqn:E; cbn [outcome final iterations];
      [auto|discriminate].
  - destruct (isRunning (scene_of st)) eqn:E; [|discriminate].
    destruct (loop_body ticksPerSecond st f) as [st1 calls].
    cbn [outcome final iterations length]. intros H.
    destruct (IH st1 H) as [H1 H2]. auto.
Qed.

Lemma loop_from_app (ticksPerSecond : spec_float) (pre rest : list Frame) :
  forall st : LoopState,
  outcome (loop_from ticksPerSecond st pre) = StillRunning ->
  loop_from ticksPerSecond st (pre ++ rest)
  = let r1 := loop_from ticksPerSecond st pre in
    let r2 := loop_from ticksPerSecond (final r1) rest in
    mkRun (outcome r2) (final r2) (iterations r1 ++ iterations r2) (unread r2).
Proof.
  induction pre as [|f pre IH]; intros st; cbn [loop_from app].
  - destruct (isRunning (scene_of st)) eqn:E; [|discriminate].
    intros _. cbn [final iterations app].
    destruct (loop_from ticksPerSecond st rest); reflexivity.
  - destruct (isRunning (scene_of st)) eqn:E; [|discriminate].
    destruct (loop_body ticksPerSecond st f) as [st1 calls].
    cbn [outcome final iterations]. intros H. rewrite (IH st1 H). reflexivity.
Qed.

Lemma updates_split (a b : list Call) :
  updates (a ++ b) = (updates a + updates b)%nat.
Proof. unfold updates. rewrite filter_app, length_app. reflexivity. Qed.

(** An iteration in which [Update] is not due reads no event: it keeps the
    scene and appends the iteration's arrivals to the queue. *)
Lemma loop_body_waits (ticksPerSecond : spec_float) (st : LoopState) (f : Frame) :
  update_due ticksPerSecond st f = false ->
  scene_of (fst (loop_body ticksPerSecond st f)) = scene_of st /\
  pending_of (fst (loop_body ticksPerSecond st f)) = pending_of st ++ arrivals f /\
  snd (loop_body ticksPerSecond st f) = [CallDraw (Draw (scene_of st))].
Proof.
  unfold update_due, loop_body. intros H. rewrite H.
  cbn [fst snd scene_of pending_of]. auto.
Qed.

Lemma loop_body_runs_Update (ticksPerSecond : spec_float) (st : LoopState)
    (f : Frame) :
  update_due ticksPerSecond st f = true ->
  updates (snd (loop_body ticksPerSecond st f)) = 1%nat.
Proof.
  unfold update_due, loop_body. intros H. rewrite H.
  destruct (Update (scene_of st) (pending_of st ++ arrivals f) secondsPerUpdate).
  reflexivity.
Qed.

(** Over iterations none of which calls [Update], a running loop keeps
    running, on the same scene, and its queue grows by every arrival, in
    order. *)
Lemma loop_from_waiting (ticksPerSecond : spec_float) (waiting : list Frame) :
  forall st : LoopState,
  isRunning (scene_of st) = true ->
  updates (concat (iterations (loop_from ticksPerSecond st waiting))) = 0%nat ->
  outcome (loop_from ticksPerSecond st waiting) = StillRunning /\
  scene_of (final (loop_from ticksPerSecond st waiting)) = scene_of st /\
  pending_of (final (loop_from ticksPerSecond st waiting))
  = pending_of st ++ concat (map arrivals waiting).
Proof.
  induction waiting as [|f rest IH]; intros st Hrun; cbn [loop_from].
  - rewrite Hrun. cbn [outcome final map concat]. rewrite app_nil_r. auto.
  - rewrite Hrun.
    destruct (update_due ticksPerSecond st f) eqn:Hdue.
    + pose proof (loop_body_runs_Update ticksPerSecond st f Hdue) as Hu.
      destruct (loop_body ticksPerSecond st f) as [st1 calls].
      cbn [snd] in Hu. cbn [iterations concat]. rewrite updates_split, Hu.
      discriminate.
    + destruct (loop_body_waits ticksPerSecond st f Hdue) as (Hs & Hp & Hc).
      destruct (loop_body ticksPerSecond st f) as [st1 calls].
      cbn [fst snd] in Hs, Hp, Hc. subst calls.
      cbn [outcome final iterations concat map]. rewrite updates_split.
      cbn [updates filter is_update length Nat.add]. intros H0.
      assert (Hrun1 : isRunning (scene_of st1) = true) by (rewrite Hs; exact Hrun).
      destruct (IH st1 Hrun1 H0) as (Ho & Hs' & Hp').
      split; [exact Ho|]. split; [rewrite Hs', Hs; reflexivity|].
      rewrite Hp', Hp, <- app_assoc. reflexivity.
Qed.

(** The iteration after [pre] in which [Update] is due with a quit-type event
    in the queue is the last one. *)
Lemma GameLoop_quit_polled (perfFrequency tick0 : Z) (scene : Scene)
    (pre : list Frame) (f : Frame) (post : list Frame) :
  let before := GameLoop perfFrequency tick0 pre scene in
  let r := GameLoop perfFrequency tick0 (pre ++ f :: post) scene in
  outcome before = StillRunning ->
  update_due (double_of_uint64 perfFrequency) (final before) f = true ->
  existsb quit_event (pending_of (final before) ++ arrivals f) = true ->
  outcome r = Exited /\
  isRunning (scene_of (final r)) = false /\
  length (iterations r) = S (length pre) /\
  total_draws r = S (length pre) /\
  total_updates r = S (total_updates before) /\
  unread r = post.
Proof.
  intros before r Hrun Hdue Hquit.
  assert (Hdraws : total_draws r = length (iterations r)).
  { unfold total_draws. apply draws_concat. apply loop_from_calls. }
  unfold total_updates.
  unfold GameLoop in *.
  set (tps := double_of_uint64 perfFrequency) in *.
  set (st0 := mkLoop scene (double_of_uint64 tick0) pzero []) in *.
  destruct (loop_from_still_running tps pre st0 Hrun) as [Hr1 Hlen].
  assert (Er : r = let r2 := loop_from tps (final before) (f :: post) in
                   mkRun (outcome r2) (final r2)
                         (iterations before ++ iterations r2) (unread r2)).
  { unfold r. rewrite (loop_from_app tps pre (f :: post) st0 Hrun). reflexivity. }
  assert (E2 : exists st1 calls,
             loop_from tps (final before) (f :: post)
             = mkRun Exited st1 [calls] post /\
             isRunning (scene_of st1) = false /\ updates calls = 1%nat).
  { cbn [loop_from]. fold before in Hr1. rewrite Hr1.
    pose proof (loop_body_runs_Update tps (final before) f Hdue) as Hone.
    revert Hone.
    unfold loop_body. unfold update_due in Hdue. rewrite Hdue.
    pose proof (Update_isRunning (scene_of (final before))
                  (pending_of (final before) ++ arrivals f) secondsPerUpdate) as Hu.
    destruct (Update (scene_of (final before))
                (pending_of (final before) ++ arrivals f) secondsPerUpdate)
      as [scene1 pending1].
    cbn [fst snd] in *. rewrite Hquit, andb_false_r in Hu. intros Hone.
    rewrite loop_from_stopped by exact Hu.
    do 2 eexists. split; [reflexivity|]. split; [exact Hu|exact Hone]. }
  destruct E2 as (st1 & calls & E2 & Hstop & Hone).
  rewrite E2 in Er. cbn [outcome final iterations unread] in Er.
  rewrite Hdraws. rewrite Er. cbn [outcome final iterations unread].
  rewrite length_app. fold before in Hlen. rewrite Hlen. cbn [length].
  rewrite concat_app, updates_split. cbn [concat]. rewrite app_nil_r, Hone.
  repeat split; auto; lia.
Qed.

(** C5, as the code has it. An [Update] call that polls a quit-type event
    leaves [isRunning] false, and a loop whose scene is not running exits at
    the top without any call. So when the loop is still running after the
    iterations of [pre], and in the next iteration [Update] is due with a
    quit-type event pending, that iteration is the last: the loop exits after
    [length pre + 1] iterations and as many [Draw] calls, and reads no frame of
    [post]; with four iterations before, exactly 5 [Draw] calls.

    An iteration in which [Update] is not due polls nothing: it leaves the
    scene as it is and appends its arrivals to the queue. So when no [Update]
    is called during the iterations of [waiting], the loop is still running
    after them and the queue holds everything it held before followed by every
    event that arrived meanwhile, in order of arrival. If a quit-type event
    arrived during [waiting], the first later iteration in which [Update] is
    due is the last one: the loop exits after
    [length pre + length waiting + 1] iterations and as many [Draw] calls,
    with one more [Update] call than before [waiting]. *)
Theorem quit_stops_GameLoop :
  (forall (scene : Scene) (pending : list SDL_Event) (dt : spec_float),
      existsb quit_event pending = true ->
      isRunning (fst (Update scene pending dt)) = false) /\
  (forall (ticksPerSecond : spec_float) (st : LoopState) (frames : list Frame),
      isRunning (scene_of st) = false ->
      loop_from ticksPerSecond st frames = mkRun Exited st [] frames) /\
  (forall (perfFrequency tick0 : Z) (scene : Scene)
          (pre : list Frame) (f : Frame) (post : list Frame),
      let before := GameLoop perfFrequency tick0 pre scene in
      let r := GameLoop perfFrequency tick0 (pre ++ f :: post) scene in
      outcome before = StillRunning ->
      update_due (double_of_uint64 perfFrequency) (final before) f = true ->
      existsb quit_event (pending_of (final before) ++ arrivals f) = true ->
      outcome r = Exited /\
      isRunning (scene_of (final r)) = false /\
      length (iterations r) = S (length pre) /\
      total_draws r = S (length pre) /\
      unread r = post /\
      (length pre = 4%nat -> total_draws r = 5%nat)) /\
  (forall (ticksPerSecond : spec_float) (st : LoopState) (f : Frame),
      update_due ticksPerSecond st f = false ->
      scene_of (fst (loop_body ticksPerSecond st f)) = scene_of st /\
      pending_of (fst (loop_body ticksPerSecond st f))
      = pending_of st ++ arrivals f /\
      snd (loop_body ticksPerSecond st f) = [CallDraw (Draw (scene_of st))]) /\
  (forall (perfFrequency tick0 : Z) (scene : Scene)
          (pre waiting : list Frame) (f : Frame) (post : list Frame),
      let before := GameLoop perfFrequency tick0 pre scene in
      let waited := GameLoop perfFrequency tick0 (pre ++ waiting) scene in
      let r := GameLoop perfFrequency tick0 (pre ++ waiting ++ f :: post) scene in
      outcome before = StillRunning ->
      total_updates waited = total_updates before ->
      existsb quit_event (concat (map arrivals waiting)) = true ->
      update_due (double_of_uint64 perfFrequency) (final waited) f = true ->
      (outcome waited = StillRunning /\
       scene_of (final waited) = scene_of (final before) /\
       pending_of (final waited)
       = pending_of (final before) ++ concat (map arrivals waiting) /\
       existsb quit_event (pending_of (final waited)) = true) /\
      outcome r = Exited /\
      isRunning (scene_of (final r)) = false /\
      length (iterations r) = S (length pre + length waiting) /\
      total_draws r = S (length pre + length waiting) /\
      total_updates r = S (total_updates before) /\
      unread r = post).
Proof.
  split; [|split; [|split; [|split]]].
  - intros scene pending dt H. rewrite Update_isRunning, H.
    apply andb_false_r.
  - apply loop_from_stopped.
  - intros freq t0 scene pre f post before r Hrun Hdue Hquit.
    destruct (GameLoop_quit_polled freq t0 scene pre f post Hrun Hdue Hquit)
      as (A & B & C & D & _ & E).
    fold r in A, B, C, D, E.
    repeat split; auto. intros H4. rewrite D, H4. reflexivity.
  - apply loop_body_waits.
  - intros freq t0 scene pre waiting f post before waited r
           Hrun Hnone Hquit Hdue.
    assert (Ew : waited
                 = let w := loop_from (double_of_uint64 freq) (final before)
                                      waiting in
                   mkRun (outcome w) (final w)
                         (iterations before ++ iterations w) (unread w)).
    { unfold waited, before, GameLoop.
      rewrite (loop_from_app _ pre waiting _ Hrun). reflexivity. }
    destruct (loop_from_still_running _ pre _ Hrun) as [Hr1 Hlen].
    fold (GameLoop freq t0 pre scene) in Hr1, Hlen. fold before in Hr1, Hlen.
    assert (H0 : updates (concat (iterations
                   (loop_from (double_of_uint64 freq) (final before) waiting)))
                 = 0%nat).
    { unfold total_updates in Hnone. rewrite Ew in Hnone.
      cbn [iterations] in Hnone. rewrite concat_app, updates_split in Hnone.
      lia. }
    destruct (loop_from_waiting _ waiting (final before) Hr1 H0)
      as (Ho & Hs & Hp).
    assert (Ho' : outcome waited = StillRunning) by (rewrite Ew; exact Ho).
    assert (Hs' : scene_of (final waited) = scene_of (final before))
      by (rewrite Ew; exact Hs).
    assert (Hp' : pending_of (final waited)
                  = pending_of (final before) ++ concat (map arrivals waiting))
      by (rewrite Ew; exact Hp).
    assert (Hq : existsb quit_event (pending_of (final waited)) = true).
    { rewrite Hp', existsb_app, Hquit. apply orb_true_r. }
    assert (Hq' : existsb quit_event (pending_of (final waited) ++ arrivals f)
                  = true).
    { rewrite existsb_app, Hq. reflexivity. }
    assert (Hnone' : total_updates waited = total_updates before) by exact Hnone.
    destruct (GameLoop_quit_polled freq t0 scene (pre ++ waiting) f post
                Ho' Hdue Hq') as (A & B & C & D & U & E).
    rewrite <- app_assoc in A, B, C, D, U, E. fold r in A, B, C, D, U, E.
    fold waited in U. rewrite length_app in C, D. rewrite Hnone' in U.
    repeat split; auto.
Qed.

Lemma quit_stops_GameLoop_witness :
  (existsb quit_event [quit_request] = true /\
   isRunning (fst (Update example_scene [quit_request] secondsPerUpdate)) = false) /\
  (isRunning (scene_of (mkLoop (set_isRunning example_scene false)
                               pzero pzero [])) = false /\
   loop_from (double_of_uint64 60)
             (mkLoop (set_isRunning example_scene false) pzero pzero [])
             (script 1 100 5)
   = mkRun Exited (mkLoop (set_isRunning example_scene false) pzero pzero [])
           [] (script 1 100 5)) /\
  ((outcome (GameLoop 60 0 (firstn 4 (script 1 100 5)) example_scene)
      = StillRunning /\
    update_due (double_of_uint64 60)
      (final (GameLoop 60 0 (firstn 4 (script 1 100 5)) example_scene))
      (mkFrame 5 [quit_request]) = true /\
    existsb quit_event
      (pending_of (final (GameLoop 60 0 (firstn 4 (script 1 100 5)) example_scene))
       ++ arrivals (mkFrame 5 [quit_request])) = true) /\
   (outcome (GameLoop 60 0 (firstn 4 (script 1 100 5)
                            ++ mkFrame 5 [quit_request]
                            :: skipn 5 (script 1 100 5)) example_scene) = Exited /\
    total_draws (GameLoop 60 0 (firstn 4 (script 1 100 5)
                                ++ mkFrame 5 [quit_request]
                                :: skipn 5 (script 1 100 5)) example_scene)
      = 5%nat)) /\
  (update_due (double_of_uint64 1000)
     (final (GameLoop 1000 0 (firstn 4 (script 1 100 5)) example_scene))
     (mkFrame 5 [quit_request]) = false /\
   pending_of (fst (loop_body (double_of_uint64 1000)
                      (final (GameLoop 1000 0 (firstn 4 (script 1 100 5))
                                example_scene))
                      (mkFrame 5 [quit_request])))
   = [quit_request]) /\
  ((outcome (GameLoop 1000 0 (firstn 4 (script 1 100 5)) example_scene)
      = StillRunning /\
    total_updates (GameLoop 1000 0 (firstn 4 (script 1 100 5)
                                    ++ firstn 12 (skipn 4 (script 1 100 5)))
                     example_scene)
    = total_updates (GameLoop 1000 0 (firstn 4 (script 1 100 5)) example_scene) /\
    existsb quit_event
      (concat (map arrivals (firstn 12 (skipn 4 (script 1 100 5))))) = true /\
    update_due (double_of_uint64 1000)
      (final (GameLoop 1000 0 (firstn 4 (script 1 100 5)
                               ++ firstn 12 (skipn 4 (script 1 100 5)))
                example_scene))
      (mkFrame 17 []) = true) /\
   (pending_of (final (GameLoop 1000 0
                         (firstn 4 (script 1 100 5)
                          ++ firstn 12 (skipn 4 (script 1 100 5)))
                         example_scene))
    = [quit_request] /\
    outcome (GameLoop 1000 0
               (firstn 4 (script 1 100 5)
                ++ firstn 12 (skipn 4 (script 1 100 5))
                ++ mkFrame 17 [] :: skipn 17 (script 1 100 5))
               example_scene) = Exited /\
    total_draws (GameLoop 1000 0
                   (firstn 4 (script 1 100 5)
                    ++ firstn 12 (skipn 4 (script 1 100 5))
                    ++ mkFrame 17 [] :: skipn 17 (script 1 100 5))
                   example_scene) = 17%nat /\
    total_updates (GameLoop 1000 0
                     (firstn 4 (script 1 100 5)
                      ++ firstn 12 (skipn 4 (script 1 100 5))
                      ++ mkFrame 17 [] :: skipn 17 (script 1 100 5))
                     example_scene) = 1%nat)).
Proof.
  split; [split; [reflexivity|]
         |split; [split; [reflexivity|]|split; [|split]]].
  - exact (proj1 quit_stops_GameLoop example_scene [quit_request]
             secondsPerUpdate eq_refl).
  - exact (proj1 (proj2 quit_stops_GameLoop) (double_of_uint64 60)
             (mkLoop (set_isRunning example_scene false) pzero pzero [])
             (script 1 100 5) eq_refl).
  - assert (H1 : outcome (GameLoop 60 0 (firstn 4 (script 1 100 5)) example_scene)
                 = StillRunning) by (vm_compute; reflexivity).
    assert (H2 : update_due (double_of_uint64 60)
                   (final (GameLoop 60 0 (firstn 4 (script 1 100 5)) example_scene))
                   (mkFrame 5 [quit_request]) = true) by (vm_compute; reflexivity).
    assert (H3 : existsb quit_event
                   (pending_of (final (GameLoop 60 0 (firstn 4 (script 1 100 5))
                                                example_scene))
                    ++ arrivals (mkFrame 5 [quit_request])) = true)
      by (vm_compute; reflexivity).
    split; [auto|].
    destruct (proj1 (proj2 (proj2 quit_stops_GameLoop)) 60 0 example_scene
                (firstn 4 (script 1 100 5)) (mkFrame 5 [quit_request])
                (skipn 5 (script 1 100 5)) H1 H2 H3) as (A & _ & _ & _ & _ & F).
    split; [exact A|]. apply F. reflexivity.
  - assert (H1 : update_due (double_of_uint64 1000)
                   (final (GameLoop 1000 0 (firstn 4 (script 1 100 5))
                             example_scene))
                   (mkFrame 5 [quit_request]) = false)
      by (vm_compute; reflexivity).
    split; [exact H1|].
    destruct (proj1 (proj2 (proj2 (proj2 quit_stops_GameLoop)))
                (double_of_uint64 1000)
                (final (GameLoop 1000 0 (firstn 4 (script 1 100 5))
                          example_scene))
                (mkFrame 5 [quit_request]) H1) as (_ & P & _).
    exact P.
  - assert (H1 : outcome (GameLoop 1000 0 (firstn 4 (script 1 100 5))
                            example_scene) = StillRunning)
      by (vm_compute; reflexivity).
    assert (H2 : total_updates
                   (GameLoop 1000 0 (firstn 4 (script 1 100 5)
                                     ++ firstn 12 (skipn 4 (script 1 100 5)))
                      example_scene)
                 = total_updates
                     (GameLoop 1000 0 (firstn 4 (script 1 100 5)) example_scene))
      by (vm_compute; reflexivity).
    assert (H3 : existsb quit_event
                   (concat (map arrivals
                              (firstn 12 (skipn 4 (script 1 100 5))))) = true)
      by (vm_compute; reflexivity).
    assert (H4 : update_due (double_of_uint64 1000)
                   (final (GameLoop 1000 0
                             (firstn 4 (script 1 100 5)
                              ++ firstn 12 (skipn 4 (script 1 100 5)))
                             example_scene))
                   (mkFrame 17 []) = true) by (vm_compute; reflexivity).
    split; [auto|].
    destruct (proj2 (proj2 (proj2 (proj2 quit_stops_GameLoop)))
                1000 0 example_scene
                (firstn 4 (script 1 100 5))
                (firstn 12 (skipn 4 (script 1 100 5)))
                (mkFrame 17 []) (skipn 17 (script 1 100 5)) H1 H2 H3 H4)
      as ((_ & _ & P & _) & A & _ & _ & D & U & _).
    split; [exact P|]. split; [exact A|]. split; [exact D|exact U].
Defined.

(** C5 as stated fails: with a millisecond counter and one tick per
    iteration, [Update] is first due in iteration 17; a quit request that
    arrives in iteration 5 waits in the queue until then, and the loop makes
    17 [Draw] calls. *)
Lemma quit_in_iteration_5_seen_in_iteration_17 :
  nth_error (script 1 100 5) 4 = Some (mkFrame 5 [quit_request]) /\
  outcome (GameLoop 1000 0 (script 1 100 5) example_scene) = Exited /\
  total_draws (GameLoop 1000 0 (script 1 100 5) example_scene) = 17%nat /\
  total_updates (GameLoop 1000 0 (script 1 100 5) example_scene) = 1%nat.
Proof. vm_compute. repeat split; reflexivity. Qed.

(** * Further properties of the program *)

(** ** Rounding from below, and values that need no rounding *)

Lemma rne_ge (x n m K : Z) (l : location) :
  0 <= n -> inbetween x n m l -> K * 2 ^ n <= x ->
  K <= round_nearest_even m l.
Proof.
  intros Hn [Hr _] HK. pose proof (pow2_pos n Hn) as HP.
  pose proof (rne_range m l). assert (K < m + 1) by nia. lia.
Qed.

Section RoundingBelow.

Variables prec emax : Z.
Hypothesis Hprec : 0 < prec.

Local Abbreviation fexp := (SpecFloat.fexp prec emax).

(** The digits of a rounded mantissa: as many as the format keeps, or one
    more when rounding reached the next power of two. *)
Lemma rounded_digits (m p1 : positive) (e m' : Z) (l : location) :
  e <= fexp (digits m + e) -> 0 <= m' ->
  inbetween (Zpos m) (fexp (digits m + e) - e) m' l ->
  round_nearest_even m' l = Zpos p1 ->
  digits p1 + fexp (digits m + e) = digits m + e \/
  (digits p1 + fexp (digits m + e) = digits m + e + 1 /\
   Zpos p1 = 2 ^ (digits p1 - 1)).
Proof.
  intros Hn Hm' Hs3 Em1.
  set (d := digits m) in *. set (e1 := fexp (d + e)) in *.
  set (n := e1 - e) in *. assert (En : n = e1 - e) by reflexivity.
  pose proof (digits_bounds m) as [Dl Du]. fold d in Dl, Du.
  pose proof (digits_pos m) as Dp. fold d in Dp.
  pose proof (rne_range m' l) as Hrange.
  pose proof (pow2_pos n ltac:(lia)) as HPn.
  assert (Hnd : n <= d).
  { destruct (Z_le_gt_dec n d) as [|Hgt]; auto. exfalso.
    assert (2 * 2 ^ d <= 2 ^ n).
    { rewrite <- pow2_succ by lia. apply pow2_le. lia. }
    destruct Hs3 as [Hr Hl]. assert (m' = 0) by nia. subst m'.
    destruct l as [|[| |]]; simpl in Em1; try lia. }
  pose proof (pow2_pos (d - n) ltac:(lia)) as HPdn.
  assert (Hup : Zpos p1 <= 2 ^ (d - n)).
  { rewrite <- Em1. apply (rne_le (Zpos m) n m' _ l); auto; try lia.
    rewrite <- Z.pow_add_r by lia. replace (d - n + n) with d by lia. lia. }
  destruct (Z.eq_dec (Zpos p1) (2 ^ (d - n))) as [Epow|Npow].
  - right. assert (digits p1 = d - n + 1).
    { apply digits_unique. replace (d - n + 1 - 1) with (d - n) by lia.
      rewrite pow2_succ by lia. lia. }
    split; [lia|]. replace (digits p1 - 1) with (d - n) by lia. exact Epow.
  - left. assert (n < d).
    { destruct (Z.eq_dec n d) as [E|]; [|lia].
      rewrite E, Z.sub_diag in *. simpl in *. lia. }
    assert (digits p1 = d - n); [|lia].
    apply digits_unique. split; [|lia].
    destruct Hs3 as [Hr Hl].
    assert (2 ^ (d - 1) = 2 ^ (d - n - 1) * 2 ^ n).
    { rewrite <- Z.pow_add_r by lia. f_equal. lia. }
    pose proof (pow2_pos (d - n - 1) ltac:(lia)).
    assert (2 ^ (d - n - 1) <= m') by nia. lia.
Qed.

(** Rounding never takes a value below a float of the format that the exact
    value is not below. *)
Lemma binary_round_aux_ge (s : bool) (m : positive) (e : Z)
    (mb : positive) (eb : Z) :
  e <= fexp (digits m + e) ->
  canonical_mantissa prec emax mb eb = true ->
  (F2R (Zpos mb) eb <= F2R (Zpos m) e)%R ->
  match binary_round_aux prec emax s (Zpos m) e loc_Exact with
  | S754_finite s' m2 e2 =>
      s' = s /\ canonical_mantissa prec emax m2 e2 = true /\
      (F2R (Zpos mb) eb <= F2R (Zpos m2) e2)%R
  | S754_infinity s' => s' = s
  | _ => False
  end.
Proof.
  intros Hn HcanB Hle. pose proof HcanB as Hcan. apply canonical_iff in Hcan.
  pose proof (digits_bounds m) as [Dl Du]. pose proof (digits_pos m) as Dp.
  assert (He1 : eb <= fexp (digits m + e)).
  { rewrite <- Hcan. apply fexp_mono. apply mag_le. exact Hle. }
  assert (HK : exists K : Z,
             0 < K /\ K * 2 ^ (fexp (digits m + e) - e) <= Zpos m /\
             (F2R (Zpos mb) eb <= F2R K (fexp (digits m + e)))%R).
  { destruct (Z.eq_dec eb (fexp (digits m + e))) as [Eeb|Neb].
    - exists (Zpos mb). split; [lia|]. split.
      + apply (F2R_le _ _ e). rewrite F2R_shift by lia.
        replace (e + (fexp (digits m + e) - e)) with eb by lia. exact Hle.
      + rewrite Eeb. lra.
    - exists (2 ^ (prec - 1)).
      assert (HDB : digits mb + eb < digits m + e).
      { destruct (Z_lt_le_dec (digits mb + eb) (digits m + e)) as [|Hge]; auto.
        apply (fexp_mono prec emax) in Hge. lia. }
      assert (Ee1 : fexp (digits m + e) = digits m + e - prec).
      { unfold SpecFloat.fexp in *. lia. }
      split; [apply pow2_pos; lia|]. split.
      + rewrite <- Z.pow_add_r by lia.
        replace (prec - 1 + (fexp (digits m + e) - e)) with (digits m - 1) by lia.
        exact Dl.
      + replace (2 ^ (prec - 1)) with (1 * 2 ^ (prec - 1)) by lia.
        rewrite F2R_shift by lia. unfold F2R at 2. rewrite Rmult_1_l.
        pose proof (F2R_digits mb eb) as [_ U].
        pose proof (bpow_le (digits mb + eb)
                      (fexp (digits m + e) + (prec - 1)) ltac:(lia)).
        lra. }
  destruct HK as (K & HK0 & HKm & HKB).
  unfold binary_round_aux, shr_fexp at 1. cbn [Zdigits2 shr_record_of_loc].
  fold (digits m).
  pose proof (shr_inbetween (Zpos m) e (fexp (digits m + e) - e)
                ltac:(lia) ltac:(lia)) as (Hs1 & Hs2 & Hs3).
  destruct (shr {| shr_m := Zpos m; shr_r := false; shr_s := false |} e
                (fexp (digits m + e) - e)) as [mrs' e'].
  cbn [fst snd] in Hs1, Hs2, Hs3. subst e'.
  replace (e + (fexp (digits m + e) - e)) with (fexp (digits m + e)) by lia.
  assert (Hn0 : 0 <= fexp (digits m + e) - e) by lia.
  pose proof (rne_ge _ _ _ _ _ Hn0 Hs3 HKm) as Hge.
  destruct (round_nearest_even (shr_m mrs') (loc_of_shr_record mrs'))
    as [|p1|p1] eqn:Em1; try lia.
  pose proof (rounded_digits m p1 e _ _ Hn Hs2 Hs3 Em1) as Hd1.
  destruct (shr_fexp_renorm prec emax Hprec p1 (fexp (digits m + e))
              (digits m + e) eq_refl Hd1) as (m2 & e2 & -> & Hc2 & Hv2).
  cbn [shr_m].
  assert (Hge2 : (F2R (Zpos mb) eb <= F2R (Zpos m2) e2)%R).
  { rewrite Hv2. eapply Rle_trans; [exact HKB|]. apply F2R_le. lia. }
  destruct (e2 <=? emax - prec); auto.
Qed.

Lemma binary_round_ge (s : bool) (m : positive) (e : Z)
    (mb : positive) (eb : Z) :
  canonical_mantissa prec emax mb eb = true ->
  (F2R (Zpos mb) eb <= F2R (Zpos m) e)%R ->
  match binary_round prec emax s m e with
  | S754_finite s' m2 e2 =>
      s' = s /\ canonical_mantissa prec emax m2 e2 = true /\
      (F2R (Zpos mb) eb <= F2R (Zpos m2) e2)%R
  | S754_infinity s' => s' = s
  | _ => False
  end.
Proof.
  intros Hb Hle. unfold binary_round. fold (digits m).
  pose proof (shl_align_spec m e (fexp (digits m + e))) as [E1 E2].
  pose proof (shl_align_F2R m e (fexp (digits m + e))) as E3.
  destruct (shl_align m e (fexp (digits m + e))) as [mz ez].
  cbn [fst snd] in E1, E2, E3.
  apply binary_round_aux_ge; auto.
  - rewrite (digits_shl m (e - ez) mz) by (lia || auto).
    replace (digits m + (e - ez) + ez) with (digits m + e) by lia. lia.
  - rewrite E3. exact Hle.
Qed.


End RoundingBelow.

(** ** Conversions and the angle step *)




Lemma good_valid (prec emax : Z) (x : spec_float) :
  good prec emax x -> valid_binary prec emax x = true.
Proof. destruct x as [s|s| |[|] m e]; simpl; auto; contradiction. Qed.

Lemma good32_of_range (a : spec_float) :
  valid_binary prec32 emax32 a = true ->
  SFleb pzero a = true -> SFleb a angle_max = true -> angle_inv a.
Proof.
  intros Hv H0 Hmax.
  assert (Hg : good prec32 emax32 a).
  { destruct a as [s|[|]| |[|] m e]; simpl in *; auto; discriminate. }
  split; auto.
  apply (SFleb_good prec32 emax32 a angle_max Hg eq_refl). exact Hmax.
Qed.

Lemma dadd_ge_left (x y : spec_float) :
  good prec64 emax64 x -> good prec64 emax64 y ->
  good prec64 emax64 (dadd x y) -> (SF2R x <= SF2R (dadd x y))%R.
Proof.
  intros Hx Hy. pose proof (SF2R_nonneg _ _ _ Hy) as Hy0.
  destruct x as [sx|sx| |[|] mx ex]; cbn [good] in Hx; try contradiction;
  destruct y as [sy|sy| |[|] my ey]; cbn [good] in Hy; try contradiction.
  - intros Hr. apply (SF2R_nonneg _ _ _ Hr).
  - intros Hr. apply (SF2R_nonneg _ _ _ Hr).
  - intros _. simpl. lra.
  - unfold dadd, SFadd.
    pose proof (shl_align_spec mx ex (Z.min ex ey)) as [A1 A2].
    pose proof (shl_align_F2R mx ex (Z.min ex ey)) as A3.
    pose proof (shl_align_spec my ey (Z.min ex ey)) as [B1 B2].
    pose proof (shl_align_F2R my ey (Z.min ex ey)) as B3.
    destruct (shl_align mx ex (Z.min ex ey)) as [mx' ex'].
    destruct (shl_align my ey (Z.min ex ey)) as [my' ey'].
    cbn [fst snd cond_Zopp SF2R] in *.
    change (Zpos mx' + Zpos my') with (Zpos (mx' + my')).
    cbn [binary_normalize].
    apply andb_prop in Hx as [Hcx _].
    assert (Hle : (F2R (Zpos mx) ex <= F2R (Zpos (mx' + my')) (Z.min ex ey))%R).
    { replace (F2R (Zpos (mx' + my')) (Z.min ex ey))
        with (F2R (Zpos mx') ex' + F2R (Zpos my') ey')%R.
      - rewrite A3, B3. lra.
      - replace ex' with (Z.min ex ey) by lia.
        replace ey' with (Z.min ex ey) by lia.
        unfold F2R. rewrite Pos2Z.inj_add, plus_IZR. ring. }
    pose proof (binary_round_ge prec64 emax64 prec64_pos false
                  (mx' + my') (Z.min ex ey) mx ex Hcx Hle) as H.
    destruct (binary_round prec64 emax64 false (mx' + my') (Z.min ex ey))
      as [s'|s'| |[|] m2 e2]; cbn [good SF2R cond_Zopp]; try contradiction;
      intros Hr; try contradiction.
    destruct H as (_ & _ & H). exact H.
Qed.

Lemma float_of_double_ge (x B : spec_float) :
  good prec64 emax64 x -> good prec32 emax32 B ->
  good prec32 emax32 (float_of_double x) ->
  (SF2R B <= SF2R x)%R -> (SF2R B <= SF2R (float_of_double x))%R.
Proof.
  intros Hx HB.
  destruct x as [sx|sx| |[|] mx ex]; cbn [good] in Hx; try contradiction.
  - intros _ H. exact H.
  - cbn [float_of_double]. intros Hr Hle.
    destruct B as [sb|sb| |[|] mb eb]; cbn [good] in HB; try contradiction.
    + apply (SF2R_nonneg _ _ _ Hr).
    + apply andb_prop in HB as [HcB _]. cbn [SF2R cond_Zopp] in Hle.
      pose proof (binary_round_ge prec32 emax32 prec32_pos false
                    mx ex mb eb HcB Hle) as H.
      destruct (binary_round prec32 emax32 false mx ex)
        as [s'|s'| |[|] m2 e2]; cbn [good] in Hr; try contradiction.
      destruct H as (_ & _ & H). exact H.
Qed.

Lemma add_angle_ge (a dt : spec_float) :
  angle_inv a -> good prec64 emax64 dt -> (SF2R dt <= SF2R dt_max)%R ->
  (SF2R a <= SF2R (add_angle a dt))%R.
Proof.
  intros Ha Hdt Hle. pose proof Ha as [Ha32 Hmax].
  destruct (add_angle_inv a dt Ha Hdt Hle) as [Hg _].
  unfold add_angle in *.
  rewrite (dmul_one_exact dt (good_valid _ _ _ Hdt)) in *.
  destruct (double_of_float_good a Ha32) as [Ha64 Ea].
  assert (Hs : good prec64 emax64 (dadd (double_of_float a) dt)).
  { apply (dadd_good _ _ (S754_finite false 7036874417766400 (-49))); auto.
    - reflexivity.
    - rewrite Ea. unfold angle_max, dt_max, SF2R, cond_Zopp, F2R, bpow in *.
      simpl in *. lra. }
  apply float_of_double_ge; auto.
  rewrite <- Ea. apply dadd_ge_left; auto.
Qed.

(** X2. Between wraps the angle does not decrease: for an angle in range and
    [0 <= dt <= 6], an [Update] call that does not wrap leaves an angle that is
    at least the angle before. *)
Theorem angle_monotone_until_wrap (scene : Scene) (pending : list SDL_Event)
    (dt : spec_float) :
  valid_binary prec32 emax32 (angle scene) = true ->
  SFleb pzero (angle scene) = true -> SFleb (angle scene) angle_max = true ->
  valid_binary prec64 emax64 dt = true ->
  SFleb pzero dt = true -> SFleb dt dt_max = true ->
  wraps (add_angle (angle scene) dt) = false ->
  SFleb (angle scene) (angle (fst (Update scene pending dt))) = true.
Proof.
  intros Hva Ha0 Hamax Hvd Hd0 Hdmax Hw.
  pose proof (good32_of_range _ Hva Ha0 Hamax) as Hinv.
  destruct (good_of_range dt Hvd Hd0 Hdmax) as [Hg Hle].
  rewrite Update_angle. unfold wrap_angle. rewrite Hw.
  destruct (add_angle_inv _ dt Hinv Hg Hle) as [Hg1 _].
  apply (SFleb_good prec32 emax32 _ _ (proj1 Hinv) Hg1).
  apply add_angle_ge; auto.
Qed.

Lemma angle_monotone_until_wrap_witness :
  valid_binary prec32 emax32 (angle example_scene) = true /\
  SFleb pzero (angle example_scene) = true /\
  SFleb (angle example_scene) angle_max = true /\
  valid_binary prec64 emax64 secondsPerUpdate = true /\
  SFleb pzero secondsPerUpdate = true /\
  SFleb secondsPerUpdate dt_max = true /\
  wraps (add_angle (angle example_scene) secondsPerUpdate) = false /\
  SFleb (angle example_scene)
        (angle (fst (Update example_scene [] secondsPerUpdate))) = true.
Proof.
  do 7 (split; [reflexivity|]).
  apply (angle_monotone_until_wrap example_scene [] secondsPerUpdate);
    reflexivity.
Defined.

(** X3. The rate [1.0] costs no rounding: for every [double] [dt], NaN and
    infinities included, [Update] adds [dt] itself to the angle. *)
Theorem Update_adds_dt (scene : Scene) (pending : list SDL_Event)
    (dt : spec_float) :
  valid_binary prec64 emax64 dt = true ->
  angle (fst (Update scene pending dt))
  = wrap_angle (float_of_double (dadd (double_of_float (angle scene)) dt)).
Proof.
  intros Hv. rewrite Update_angle. unfold add_angle.
  rewrite (dmul_one_exact dt Hv). reflexivity.
Qed.

Lemma Update_adds_dt_witness :
  valid_binary prec64 emax64 secondsPerUpdate = true /\
  angle (fst (Update example_scene [quit_request] secondsPerUpdate))
  = wrap_angle (float_of_double
                  (dadd (double_of_float (angle example_scene)) secondsPerUpdate)).
Proof.
  split; [reflexivity|].
  apply (Update_adds_dt example_scene [quit_request] secondsPerUpdate).
  reflexivity.
Defined.

(** ** More about [Update] and [Scene] *)

Lemma fold_handle_event (pending : list SDL_Event) :
  forall scene : Scene,
  fold_left handle_event pending scene
  = if existsb quit_event pending then set_isRunning scene false else scene.
Proof.
  induction pending as [|event rest IH]; intros scene; simpl; auto.
  rewrite IH, handle_event_spec.
  destruct (quit_event event); simpl; auto.
  destruct (existsb quit_event rest); reflexivity.
Qed.

(** X4. [Update] looks at the pending events only to see whether one of them is a
    quit request or a press of the quit key: two queues that agree on that
    give the same scene, whatever their length, order or other content. *)
Theorem Update_events_only_quit (scene : Scene) (p1 p2 : list SDL_Event)
    (dt : spec_float) :
  existsb quit_event p1 = existsb quit_event p2 ->
  Update scene p1 dt = Update scene p2 dt.
Proof.
  intros H. rewrite !Update_unfold, !poll_events_fold. cbn [fst].
  rewrite !fold_handle_event, H. reflexivity.
Qed.

Lemma Update_events_only_quit_witness :
  existsb quit_event [mkEvent SDL_KEYDOWN 97; quit_request]
  = existsb quit_event [mkEvent SDL_KEYDOWN SDLK_q; mkEvent 1024 0;
                        mkEvent SDL_KEYDOWN SDLK_q] /\
  Update example_scene [mkEvent SDL_KEYDOWN 97; quit_request] secondsPerUpdate
  = Update example_scene [mkEvent SDL_KEYDOWN SDLK_q; mkEvent 1024 0;
                          mkEvent SDL_KEYDOWN SDLK_q] secondsPerUpdate.
Proof.
  split; [reflexivity|].
  apply (Update_events_only_quit example_scene
           [mkEvent SDL_KEYDOWN 97; quit_request]
           [mkEvent SDL_KEYDOWN SDLK_q; mkEvent 1024 0;
            mkEvent SDL_KEYDOWN SDLK_q] secondsPerUpdate).
  reflexivity.
Defined.

(** X5. The vertices that [Scene] counts fit in the mesh: [vertexCount] whole
    vertices need at most the [N] floats given, and fewer than [vertexSize]
    floats are left over. *)
Theorem Scene_vertexCount_bounds (shaderProgram vertexArray' N : Z)
    (sizeofT : positive) (vertexSize angleParameter : Z) (scene : Scene) :
  0 <= N -> 0 < vertexSize ->
  Scene_ctor shaderProgram vertexArray' N sizeofT vertexSize angleParameter
    = Some scene ->
  0 <= vertexCount scene /\
  vertexCount scene * vertexSize <= N < (vertexCount scene + 1) * vertexSize.
Proof.
  intros HN Hvs. unfold Scene_ctor.
  destruct (Z.eqb_spec vertexSize 0) as [|_]; [lia|].
  intros [= <-]. cbn [vertexCount]. unfold sizeof_array.
  rewrite Z.div_mul by lia.
  pose proof (Z.div_pos N vertexSize HN Hvs).
  pose proof (Z.mul_div_le N vertexSize Hvs).
  pose proof (Z.mul_succ_div_gt N vertexSize Hvs). lia.
Qed.

Lemma Scene_vertexCount_bounds_witness :
  0 <= 7 /\ 0 < 2 /\
  Scene_ctor 1 1 7 4 2 0 = Some (mkScene true 1 1 3 0 pzero) /\
  0 <= vertexCount (mkScene true 1 1 3 0 pzero) /\
  vertexCount (mkScene true 1 1 3 0 pzero) * 2 <= 7
    < (vertexCount (mkScene true 1 1 3 0 pzero) + 1) * 2.
Proof.
  split; [lia|]. split; [lia|]. split; [reflexivity|].
  apply (Scene_vertexCount_bounds 1 1 7 4%positive 2 0
           (mkScene true 1 1 3 0 pzero)); [lia|lia|reflexivity].
Defined.

(** ** More about [GameLoop] *)

Arguments loop_body : simpl never.

Lemma loop_body_pending (ticksPerSecond : spec_float) (st : LoopState) (f : Frame) :
  pending_of (fst (loop_body ticksPerSecond st f))
  = if update_due ticksPerSecond st f then []
    else pending_of st ++ arrivals f.
Proof.
  unfold loop_body, update_due. destruct (dgt _ secondsPerUpdate).
  - rewrite Update_unfold. reflexivity.
  - reflexivity.
Qed.

Lemma loop_body_scene (ticksPerSecond : spec_float) (st : LoopState) (f : Frame) :
  scene_of (fst (loop_body ticksPerSecond st f))
  = if update_due ticksPerSecond st f
    then fst (Update (scene_of st) (pending_of st ++ arrivals f) secondsPerUpdate)
    else scene_of st.
Proof.
  unfold loop_body, update_due. destruct (dgt _ secondsPerUpdate).
  - destruct (Update (scene_of st) (pending_of st ++ arrivals f) secondsPerUpdate).
    reflexivity.
  - reflexivity.
Qed.

Lemma loop_from_cons (ticksPerSecond : spec_float) (st : LoopState)
    (f : Frame) (rest : list Frame) :
  isRunning (scene_of st) = true ->
  loop_from ticksPerSecond st (f :: rest)
  = let r := loop_from ticksPerSecond (fst (loop_body ticksPerSecond st f)) rest in
    mkRun (outcome r) (final r)
          (snd (loop_body ticksPerSecond st f) :: iterations r) (unread r).
Proof.
  intros H. cbn [loop_from]. rewrite H.
  destruct (loop_body ticksPerSecond st f). reflexivity.
Qed.

Lemma loop_from_without_quit (ticksPerSecond : spec_float) (frames : list Frame) :
  forall st : LoopState,
  isRunning (scene_of st) = true ->
  existsb quit_event (pending_of st ++ concat (map arrivals frames)) = false ->
  outcome (loop_from ticksPerSecond st frames) = StillRunning /\
  length (iterations (loop_from ticksPerSecond st frames)) = length frames /\
  unread (loop_from ticksPerSecond st frames) = [] /\
  isRunning (scene_of (final (loop_from ticksPerSecond st frames))) = true.
Proof.
  induction frames as [|f rest IH]; intros st Hrun Hq.
  - cbn [loop_from]. rewrite Hrun. auto.
  - rewrite loop_from_cons by exact Hrun.
    cbn [outcome final iterations unread length map concat] in *.
    rewrite !existsb_app in Hq. apply orb_false_iff in Hq as [Hq1 Hq2].
    apply orb_false_iff in Hq2 as [Hq2 Hq3].
    destruct (IH (fst (loop_body ticksPerSecond st f))) as (H1 & H2 & H3 & H4).
    + rewrite loop_body_scene.
      destruct (update_due ticksPerSecond st f); auto.
      rewrite Update_isRunning, Hrun, existsb_app, Hq1, Hq2. reflexivity.
    + rewrite loop_body_pending, existsb_app.
      destruct (update_due ticksPerSecond st f); simpl; auto.
      rewrite existsb_app, Hq1, Hq2, Hq3. reflexivity.
    + auto.
Qed.

(** X7. [GameLoop] does not stop by itself: when the scene is running and no
    quit request or quit-key press ever arrives, the loop is still running
    after any number of frames, and has drawn once for each of them. *)
Theorem GameLoop_runs_until_quit (perfFrequency tick0 : Z)
    (frames : list Frame) (scene : Scene) :
  isRunning scene = true ->
  existsb quit_event (concat (map arrivals frames)) = false ->
  outcome (GameLoop perfFrequency tick0 frames scene) = StillRunning /\
  unread (GameLoop perfFrequency tick0 frames scene) = [] /\
  total_draws (GameLoop perfFrequency tick0 frames scene) = length frames /\
  isRunning (scene_of (final (GameLoop perfFrequency tick0 frames scene))) = true.
Proof.
  intros Hrun Hq. unfold total_draws, GameLoop.
  rewrite (draws_concat _ (loop_from_calls _ _ _)).
  destruct (loop_from_without_quit (double_of_uint64 perfFrequency) frames
              (mkLoop scene (double_of_uint64 tick0) pzero []) Hrun Hq)
    as (H1 & H2 & H3 & H4).
  auto.
Qed.

Lemma GameLoop_runs_until_quit_witness :
  isRunning example_scene = true /\
  existsb quit_event (concat (map arrivals (script 1 10 0))) = false /\
  outcome (GameLoop 60 0 (script 1 10 0) example_scene) = StillRunning /\
  unread (GameLoop 60 0 (script 1 10 0) example_scene) = [] /\
  total_draws (GameLoop 60 0 (script 1 10 0) example_scene)
    = length (script 1 10 0) /\
  isRunning (scene_of (final (GameLoop 60 0 (script 1 10 0) example_scene)))
    = true.
Proof.
  split; [reflexivity|]. split; [reflexivity|].
  apply (GameLoop_runs_until_quit 60 0 (script 1 10 0) example_scene);
    reflexivity.
Defined.

Lemma loop_from_exit_cause (ticksPerSecond : spec_float) (frames : list Frame) :
  forall st : LoopState,
  isRunning (scene_of st) = true ->
  outcome (loop_from ticksPerSecond st frames) = Exited ->
  existsb quit_event
    (pending_of st
     ++ concat (map arrivals
                  (read_frames (loop_from ticksPerSecond st frames) frames)))
    = true /\
  updates (last (iterations (loop_from ticksPerSecond st frames)) []) = 1%nat.
Proof.
  induction frames as [|f rest IH]; intros st Hrun.
  - cbn [loop_from]. rewrite Hrun. discriminate.
  - rewrite loop_from_cons by exact Hrun. unfold read_frames.
    cbn [outcome final iterations unread length firstn map concat].
    set (st1 := fst (loop_body ticksPerSecond st f)).
    destruct (isRunning (scene_of st1)) eqn:Hrun1.
    + intros Hout. destruct (IH st1 Hrun1 Hout) as [Hq Hlast].
      unfold read_frames in Hq. split.
      * pose proof (loop_body_pending ticksPerSecond st f) as Hp.
        fold st1 in Hp. rewrite Hp in Hq. rewrite !existsb_app in *.
        destruct (update_due ticksPerSecond st f).
        -- simpl in Hq. rewrite Hq. rewrite !orb_true_r. reflexivity.
        -- rewrite existsb_app in Hq. rewrite <- !orb_assoc in *. exact Hq.
      * destruct (iterations (loop_from ticksPerSecond st1 rest)) as [|c its].
        -- simpl in Hlast. discriminate.
        -- exact Hlast.
    + intros _. rewrite (loop_from_stopped _ st1 rest Hrun1).
      cbn [iterations length firstn map concat last].
      pose proof (loop_body_scene ticksPerSecond st f) as Hsc.
      fold st1 in Hsc. rewrite Hsc in Hrun1.
      pose proof (loop_body_calls ticksPerSecond st f) as [Hu _].
      destruct (update_due ticksPerSecond st f); [|congruence].
      split; [|exact Hu].
      rewrite Update_isRunning, Hrun in Hrun1. simpl in Hrun1.
      apply negb_false_iff in Hrun1.
      rewrite app_nil_r. exact Hrun1.
Qed.

(** X8. [GameLoop] exits for one reason only: when it stops on a scene that was
    running, a quit request or quit-key press arrived during one of the
    iterations it made, and its last iteration called [Update]. *)
Theorem GameLoop_exit_cause (perfFrequency tick0 : Z) (frames : list Frame)
    (scene : Scene) :
  isRunning scene = true ->
  outcome (GameLoop perfFrequency tick0 frames scene) = Exited ->
  existsb quit_event
    (concat (map arrivals
               (read_frames (GameLoop perfFrequency tick0 frames scene) frames)))
    = true /\
  updates (last (iterations (GameLoop perfFrequency tick0 frames scene)) [])
    = 1%nat.
Proof.
  intros Hrun Hout. unfold GameLoop in *.
  apply (loop_from_exit_cause (double_of_uint64 perfFrequency) frames
           (mkLoop scene (double_of_uint64 tick0) pzero []) Hrun Hout).
Qed.

Lemma GameLoop_exit_cause_witness :
  isRunning example_scene = true /\
  outcome (GameLoop 1000 0 (script 1 100 5) example_scene) = Exited /\
  existsb quit_event
    (concat (map arrivals
               (read_frames (GameLoop 1000 0 (script 1 100 5) example_scene)
                            (script 1 100 5)))) = true /\
  updates (last (iterations (GameLoop 1000 0 (script 1 100 5) example_scene)) [])
    = 1%nat.
Proof.
  split; [reflexivity|]. split; [vm_compute; reflexivity|].
  apply (GameLoop_exit_cause 1000 0 (script 1 100 5) example_scene);
    [reflexivity|vm_compute; reflexivity].
Defined.

Lemma loop_from_accounting (ticksPerSecond : spec_float) (frames : list Frame) :
  forall st : LoopState,
  read_frames (loop_from ticksPerSecond st frames) frames
  ++ unread (loop_from ticksPerSecond st frames) = frames.
Proof.
  induction frames as [|f rest IH]; intros st; unfold read_frames in *.
  - cbn [loop_from]. destruct (isRunning (scene_of st)); reflexivity.
  - destruct (isRunning (scene_of st)) eqn:Hrun.
    + rewrite loop_from_cons by exact Hrun.
      cbn [iterations unread length firstn app]. rewrite IH. reflexivity.
    + rewrite loop_from_stopped by exact Hrun. reflexivity.
Qed.

Lemma loop_from_length (ticksPerSecond : spec_float) (frames : list Frame) :
  forall st : LoopState,
  (length (iterations (loop_from ticksPerSecond st frames)) <= length frames)%nat.
Proof.
  induction frames as [|f rest IH]; intros st.
  - cbn [loop_from]. destruct (isRunning (scene_of st)); simpl; lia.
  - destruct (isRunning (scene_of st)) eqn:Hrun.
    + rewrite loop_from_cons by exact Hrun. cbn [iterations length].
      specialize (IH (fst (loop_body ticksPerSecond st f))). lia.
    + rewrite loop_from_stopped by exact Hrun. simpl. lia.
Qed.

Lemma updates_app (a b : list Call) : updates (a ++ b) = (updates a + updates b)%nat.
Proof. unfold updates. rewrite filter_app, length_app. reflexivity. Qed.

Lemma updates_concat (its : list (list Call)) :
  Forall (fun calls => (updates calls <= 1)%nat /\ draws calls = 1%nat) its ->
  (updates (concat its) <= length its)%nat.
Proof.
  induction 1 as [|calls rest [Hu _] _ IH]; simpl; auto.
  rewrite updates_app. lia.
Qed.

(** X9. [GameLoop] reads the frames in order, one per iteration, and leaves the
    others unread; it draws once per frame read and updates at most
    as often. *)
Theorem GameLoop_accounting (perfFrequency tick0 : Z) (frames : list Frame)
    (scene : Scene) :
  read_frames (GameLoop perfFrequency tick0 frames scene) frames
  ++ unread (GameLoop perfFrequency tick0 frames scene) = frames /\
  total_draws (GameLoop perfFrequency tick0 frames scene)
  = length (read_frames (GameLoop perfFrequency tick0 frames scene) frames) /\
  (total_updates (GameLoop perfFrequency tick0 frames scene)
   <= total_draws (GameLoop perfFrequency tick0 frames scene))%nat.
Proof.
  pose proof (loop_from_accounting (double_of_uint64 perfFrequency) frames
                (mkLoop scene (double_of_uint64 tick0) pzero [])) as Hacc.
  fold (GameLoop perfFrequency tick0 frames scene) in Hacc.
  pose proof (loop_from_calls (double_of_uint64 perfFrequency) frames
                (mkLoop scene (double_of_uint64 tick0) pzero [])) as Hcalls.
  fold (GameLoop perfFrequency tick0 frames scene) in Hcalls.
  split; [exact Hacc|].
  unfold total_draws, total_updates. rewrite (draws_concat _ Hcalls).
  split.
  - unfold read_frames, GameLoop. rewrite length_firstn.
    pose proof (loop_from_length (double_of_uint64 perfFrequency) frames
                  (mkLoop scene (double_of_uint64 tick0) pzero [])). lia.
  - apply updates_concat, Hcalls.
Qed.

(** *** A performance counter that stands still *)

Lemma dsub_diag_idle (x : spec_float) : idle (dsub x x).
Proof.
  unfold dsub, SFsub. destruct x as [s|s| |s m e].
  - destruct s; exact I.
  - destruct s; exact I.
  - exact I.
  - rewrite Z.sub_diag. exact I.
Qed.

Lemma ddiv_idle (y tps : spec_float) : idle y -> idle (ddiv y tps).
Proof.
  unfold ddiv, SFdiv.
  destruct y as [s|s| |s m e]; cbn [idle]; try contradiction; intros _;
    destruct tps; exact I.
Qed.

Lemma dadd_idle (a b : spec_float) : idle a -> idle b -> idle (dadd a b).
Proof.
  unfold dadd, SFadd.
  destruct a as [sa|sa| |sa ma ea]; cbn [idle]; try contradiction; intros _;
    destruct b as [sb|sb| |sb mb eb]; cbn [idle]; try contradiction; intros _;
    try exact I.
  destruct sa, sb; exact I.
Qed.

Lemma idle_not_due (x : spec_float) : idle x -> dgt x secondsPerUpdate = false.
Proof.
  destruct x as [s|s| |s m e]; cbn [idle]; try contradiction; reflexivity.
Qed.

Lemma loop_body_not_due (ticksPerSecond : spec_float) (st : LoopState) (f : Frame) :
  update_due ticksPerSecond st f = false ->
  loop_body ticksPerSecond st f
  = (mkLoop (scene_of st) (double_of_uint64 (tick f))
            (dadd (accumulatedTime st)
                  (elapsed ticksPerSecond (previousTickCount st) f))
            (pending_of st ++ arrivals f),
     [CallDraw (Draw (scene_of st))]).
Proof. unfold update_due, loop_body. intros ->. reflexivity. Qed.

Lemma loop_from_frozen (ticksPerSecond : spec_float) (tick0 : Z)
    (frames : list Frame) :
  forall st : LoopState,
  isRunning (scene_of st) = true -> idle (accumulatedTime st) ->
  previousTickCount st = double_of_uint64 tick0 ->
  Forall (fun f => tick f = tick0) frames ->
  outcome (loop_from ticksPerSecond st frames) = StillRunning /\
  updates (concat (iterations (loop_from ticksPerSecond st frames))) = 0%nat /\
  scene_of (final (loop_from ticksPerSecond st frames)) = scene_of st /\
  pending_of (final (loop_from ticksPerSecond st frames))
    = pending_of st ++ concat (map arrivals frames).
Proof.
  induction frames as [|f rest IH]; intros st Hrun Hidle Hprev Hticks.
  - cbn [loop_from]. rewrite Hrun. cbn [outcome final iterations concat map].
    rewrite app_nil_r. auto.
  - rewrite loop_from_cons by exact Hrun.
    inversion Hticks as [|f' rest' Hf Hrest]; subst f' rest'.
    assert (Hel : idle (elapsed ticksPerSecond (previousTickCount st) f)).
    { unfold elapsed. rewrite Hprev, Hf. apply ddiv_idle, dsub_diag_idle. }
    assert (Hacc : idle (dadd (accumulatedTime st)
                           (elapsed ticksPerSecond (previousTickCount st) f)))
      by (apply dadd_idle; auto).
    assert (Hdue : update_due ticksPerSecond st f = false)
      by (apply idle_not_due, Hacc).
    rewrite (loop_body_not_due _ _ _ Hdue). cbn [fst snd].
    cbn [outcome final iterations concat map].
    destruct (IH (mkLoop (scene_of st) (double_of_uint64 (tick f))
                    (dadd (accumulatedTime st)
                          (elapsed ticksPerSecond (previousTickCount st) f))
                    (pending_of st ++ arrivals f)))
      as (H1 & H2 & H3 & H4); auto.
    + cbn [previousTickCount]. rewrite Hf. reflexivity.
    + cbn [scene_of pending_of] in *. rewrite updates_app, H2, H4, <- app_assoc.
      auto.
Qed.

(** X10. When the performance counter does not advance (every read returns the
    value read before the loop), [GameLoop] never calls [Update], whatever the
    counter frequency: it draws the unchanged scene once per frame, the events
    pile up unpolled, and the loop does not stop even on a quit request. *)
Theorem GameLoop_frozen_clock (perfFrequency tick0 : Z) (frames : list Frame)
    (scene : Scene) :
  isRunning scene = true ->
  Forall (fun f => tick f = tick0) frames ->
  outcome (GameLoop perfFrequency tick0 frames scene) = StillRunning /\
  total_updates (GameLoop perfFrequency tick0 frames scene) = 0%nat /\
  total_draws (GameLoop perfFrequency tick0 frames scene) = length frames /\
  scene_of (final (GameLoop perfFrequency tick0 frames scene)) = scene /\
  pending_of (final (GameLoop perfFrequency tick0 frames scene))
    = concat (map arrivals frames).
Proof.
  intros Hrun Hticks.
  destruct (loop_from_frozen (double_of_uint64 perfFrequency) tick0 frames
              (mkLoop scene (double_of_uint64 tick0) pzero [])
              Hrun I eq_refl Hticks) as (H1 & H2 & H3 & H4).
  pose proof (loop_from_still_running (double_of_uint64 perfFrequency) frames
                (mkLoop scene (double_of_uint64 tick0) pzero []) H1) as [_ Hlen].
  pose proof (draws_concat _ (loop_from_calls (double_of_uint64 perfFrequency)
                frames (mkLoop scene (double_of_uint64 tick0) pzero []))) as Hd.
  fold (GameLoop perfFrequency tick0 frames scene) in H1, H2, H3, H4, Hlen, Hd.
  repeat split; auto.
  unfold total_draws. rewrite Hd. exact Hlen.
Qed.

Lemma GameLoop_frozen_clock_witness :
  isRunning example_scene = true /\
  Forall (fun f => tick f = 7)
         [mkFrame 7 [quit_request]; mkFrame 7 []; mkFrame 7 []] /\
  outcome (GameLoop 1000 7 [mkFrame 7 [quit_request]; mkFrame 7 []; mkFrame 7 []]
                    example_scene) = StillRunning /\
  total_updates (GameLoop 1000 7
                   [mkFrame 7 [quit_request]; mkFrame 7 []; mkFrame 7 []]
                   example_scene) = 0%nat /\
  total_draws (GameLoop 1000 7
                 [mkFrame 7 [quit_request]; mkFrame 7 []; mkFrame 7 []]
                 example_scene)
    = length [mkFrame 7 [quit_request]; mkFrame 7 []; mkFrame 7 []] /\
  scene_of (final (GameLoop 1000 7
                     [mkFrame 7 [quit_request]; mkFrame 7 []; mkFrame 7 []]
                     example_scene)) = example_scene /\
  pending_of (final (GameLoop 1000 7
                       [mkFrame 7 [quit_request]; mkFrame 7 []; mkFrame 7 []]
                       example_scene))
    = concat (map arrivals
                [mkFrame 7 [quit_request]; mkFrame 7 []; mkFrame 7 []]).
Proof.
  assert (H : Forall (fun f => tick f = 7)
                [mkFrame 7 [quit_request]; mkFrame 7 []; mkFrame 7 []])
    by (repeat constructor).
  split; [reflexivity|]. split; [exact H|].
  apply (GameLoop_frozen_clock 1000 7
           [mkFrame 7 [quit_request]; mkFrame 7 []; mkFrame 7 []]
           example_scene eq_refl H).
Defined.

(** *** The frames that [GameLoop] draws *)

Lemma loop_body_trace (ticksPerSecond : spec_float) (st : LoopState) (f : Frame) :
  snd (loop_body ticksPerSecond st f)
  = (if update_due ticksPerSecond st f then [CallUpdate secondsPerUpdate] else [])
    ++ [CallDraw (Draw (scene_of (fst (loop_body ticksPerSecond st f))))].
Proof.
  unfold loop_body, update_due. destruct (dgt _ secondsPerUpdate).
  - destruct (Update (scene_of st) (pending_of st ++ arrivals f) secondsPerUpdate).
    reflexivity.
  - reflexivity.
Qed.

Lemma Update_static (scene : Scene) (pending : list SDL_Event) (dt : spec_float) :
  program (fst (Update scene pending dt)) = program scene /\
  vertexArray (fst (Update scene pending dt)) = vertexArray scene /\
  vertexCount (fst (Update scene pending dt)) = vertexCount scene /\
  angleShaderParameter (fst (Update scene pending dt))
    = angleShaderParameter scene.
Proof.
  rewrite Update_unfold. cbn [fst set_angle program vertexArray vertexCount
                                angleShaderParameter].
  destruct (poll_events_frame pending scene) as (H1 & H2 & H3 & H4 & _). auto.
Qed.

Lemma Draw_same_static (scene s : Scene) :
  program s = program scene -> vertexArray s = vertexArray scene ->
  vertexCount s = vertexCount scene ->
  angleShaderParameter s = angleShaderParameter scene ->
  Draw s = Draw (set_angle scene (angle s)).
Proof.
  intros H1 H2 H3 H4. unfold Draw.
  cbn [set_angle program vertexArray vertexCount angleShaderParameter angle].
  rewrite H1, H2, H3, H4. reflexivity.
Qed.

Lemma secondsPerUpdate_good :
  good prec64 emax64 secondsPerUpdate /\
  (SF2R secondsPerUpdate <= SF2R dt_max)%R.
Proof. apply good_of_range; reflexivity. Qed.

Lemma loop_from_draws (ticksPerSecond : spec_float) (scene : Scene)
    (frames : list Frame) :
  forall st : LoopState,
  program (scene_of st) = program scene ->
  vertexArray (scene_of st) = vertexArray scene ->
  vertexCount (scene_of st) = vertexCount scene ->
  angleShaderParameter (scene_of st) = angleShaderParameter scene ->
  angle_inv (angle (scene_of st)) ->
  Forall (Forall (draws_scene_in_range scene))
         (iterations (loop_from ticksPerSecond st frames)).
Proof.
  induction frames as [|f rest IH]; intros st H1 H2 H3 H4 Hinv.
  - cbn [loop_from]. destruct (isRunning (scene_of st)); constructor.
  - destruct (isRunning (scene_of st)) eqn:Hrun.
    2:{ rewrite loop_from_stopped by exact Hrun. constructor. }
    rewrite loop_from_cons by exact Hrun. cbn [iterations].
    set (st1 := fst (loop_body ticksPerSecond st f)).
    assert (Hst1 : program (scene_of st1) = program scene /\
                   vertexArray (scene_of st1) = vertexArray scene /\
                   vertexCount (scene_of st1) = vertexCount scene /\
                   angleShaderParameter (scene_of st1)
                     = angleShaderParameter scene /\
                   angle_inv (angle (scene_of st1))).
    { unfold st1. rewrite loop_body_scene.
      destruct (update_due ticksPerSecond st f); auto.
      destruct (Update_static (scene_of st) (pending_of st ++ arrivals f)
                  secondsPerUpdate) as (G1 & G2 & G3 & G4).
      rewrite G1, G2, G3, G4, Update_angle.
      destruct secondsPerUpdate_good as [Hg Hle].
      do 4 (split; [assumption|]). apply angle_inv_step; assumption. }
    destruct Hst1 as (K1 & K2 & K3 & K4 & Kinv).
    constructor; [|apply IH; auto].
    rewrite loop_body_trace. fold st1. apply Forall_app. split.
    + destruct (update_due ticksPerSecond st f); repeat constructor.
    + constructor; [|constructor]. cbn [draws_scene_in_range].
      exists (angle (scene_of st1)). split.
      * apply Draw_same_static; auto.
      * apply angle_inv_range. exact Kinv.
Qed.

(** X11. Every frame that [GameLoop] draws is the scene it was given with only
    the angle changed: the same program, vertex array, vertex count and
    uniform location in every [Draw], and an angle that is at least 0 and below
    [2 * M_PI] whenever the scene starts with such an angle. *)
Theorem GameLoop_draws_scene (perfFrequency tick0 : Z) (frames : list Frame)
    (scene : Scene) :
  valid_binary prec32 emax32 (angle scene) = true ->
  SFleb pzero (angle scene) = true -> SFleb (angle scene) angle_max = true ->
  Forall (Forall (draws_scene_in_range scene))
         (iterations (GameLoop perfFrequency tick0 frames scene)).
Proof.
  intros Hv H0 Hmax. unfold GameLoop.
  apply loop_from_draws; auto. cbn [scene_of].
  apply good32_of_range; auto.
Qed.

Lemma GameLoop_draws_scene_witness :
  valid_binary prec32 emax32 (angle example_scene) = true /\
  SFleb pzero (angle example_scene) = true /\
  SFleb (angle example_scene) angle_max = true /\
  Forall (Forall (draws_scene_in_range example_scene))
         (iterations (GameLoop 60 0 (script 1 10 0) example_scene)).
Proof.
  do 3 (split; [reflexivity|]).
  apply (GameLoop_draws_scene 60 0 (script 1 10 0) example_scene);
    reflexivity.
Defined.

(** ** Start-up and shutdown *)

Arguments GameLoop : simpl never.

Open Scope string_scope.

(** X12. A failed compilation or link is reported without the driver's log: the
    log string is given a capacity by [reserve] but keeps size 0, so the
    driver is asked for 0 characters, and the message ends after the header
    line, whatever the log says. *)
Theorem info_log_never_reported :
  (forall (d : ShaderDriver) (type : Z) (source : String.string),
      compile_status d = 0 ->
      snd (Shader_ctor d type source)
      = Thrown ("Error compiling " +++ decimal type +++ " shader:"
                +++ newline +++ newline) /\
      In (glGetShaderInfoLog (created_shader d) 0)
         (fst (Shader_ctor d type source))) /\
  (forall (d : ProgramDriver) (vertexShader fragmentShader : Z),
      link_status d = 0 ->
      snd (LinkProgram d vertexShader fragmentShader)
      = Thrown ("Error linking vertex and fragment shaders:"
                +++ newline +++ newline) /\
      In (glGetProgramInfoLog (created_program d) 0)
         (fst (LinkProgram d vertexShader fragmentShader))).
Proof.
  split.
  - intros d type source H. unfold Shader_ctor. rewrite H.
    cbn. split; [reflexivity|]. tauto.
  - intros d vs fs H. unfold LinkProgram. rewrite H.
    cbn. split; [reflexivity|]. tauto.
Qed.

Lemma info_log_never_reported_witness :
  (compile_status (mkShaderDriver 7 0 "0:1(1): error: syntax error") = 0 /\
   link_status (mkProgramDriver 9 0 "error: undefined main") = 0) /\
  snd (Shader_ctor (mkShaderDriver 7 0 "0:1(1): error: syntax error")
                   GL_VERTEX_SHADER "void main() {")
  = Thrown ("Error compiling 35633 shader:" +++ newline +++ newline) /\
  snd (LinkProgram (mkProgramDriver 9 0 "error: undefined main") 7 8)
  = Thrown ("Error linking vertex and fragment shaders:" +++ newline +++ newline).
Proof.
  split; [split; reflexivity|]. split.
  - exact (proj1 (proj1 info_log_never_reported
             (mkShaderDriver 7 0 "0:1(1): error: syntax error")
             GL_VERTEX_SHADER "void main() {" eq_refl)).
  - exact (proj1 (proj2 info_log_never_reported
             (mkProgramDriver 9 0 "error: undefined main") 7 8 eq_refl)).
Defined.

Ltac unfold_startup :=
  unfold main, SDL_ctor, MainWindow_ctor, OpenGL_ctor, ShaderProgram_ctor,
    LoadFile, Shader_ctor, LinkProgram, Shader_dtor, VertexBuffer_ctor,
    VertexArray_ctor, configure_quad, run_GameLoop, FatalError.

Ltac split_ifs :=
  repeat match goal with
  | |- context [if ?a =? ?b then _ else _] => destruct (a =? b) eqn:?; cbn
  | |- context [if ?a <? ?b then _ else _] => destruct (a <? b) eqn:?; cbn
  | |- context [match file_contents ?p ?x with _ => _ end] =>
      destruct (file_contents p x) eqn:?; cbn
  | |- context [match outcome ?r with _ => _ end] =>
      destruct (outcome r) eqn:?; cbn
  end.

Ltac prefix_of t X :=
  lazymatch t with
  | X ++ _ => constr:(@nil PlatformCall)
  | X => constr:(@nil PlatformCall)
  | ?c :: ?t' => let r := prefix_of t' X in constr:(c :: r)
  end.

(** X13. [ShaderProgram] does its steps in order and stops at the first that
    fails: no shader is created before both files were read, and no program
    is created before both shaders compiled. When the constructor returns, it
    returns the program the driver created, the link succeeded, and the two
    shader objects have been deleted, the fragment shader first (a shader whose
    handle is 0 is not deleted). *)
Theorem ShaderProgram_ctor_order (p : Platform)
    (vertexShaderFilename fragmentShaderFilename : String.string) :
  (In glCreateProgram
      (fst (ShaderProgram_ctor p vertexShaderFilename fragmentShaderFilename)) ->
   file_contents p (base_path p +++ vertexShaderFilename) <> None /\
   file_contents p (base_path p +++ fragmentShaderFilename) <> None /\
   compile_status (vertex_driver p) <> 0 /\
   compile_status (fragment_driver p) <> 0) /\
  (In (glCreateShader GL_VERTEX_SHADER)
      (fst (ShaderProgram_ctor p vertexShaderFilename fragmentShaderFilename)) ->
   file_contents p (base_path p +++ vertexShaderFilename) <> None /\
   file_contents p (base_path p +++ fragmentShaderFilename) <> None) /\
  (forall shaderProgramHandle : Z,
      snd (ShaderProgram_ctor p vertexShaderFilename fragmentShaderFilename)
        = Returned shaderProgramHandle ->
      shaderProgramHandle = created_program (program_driver p) /\
      link_status (program_driver p) <> 0 /\
      filter is_release
        (fst (ShaderProgram_ctor p vertexShaderFilename fragmentShaderFilename))
      = shader_deletes p).
Proof.
  unfold shader_deletes. unfold_startup. cbn. split_ifs.
  all: repeat split; intros; try discriminate; try congruence; try lia;
    cbn in *; intuition (try discriminate; try congruence; try lia).
Qed.

Lemma ShaderProgram_ctor_order_witness :
  (In glCreateProgram
      (fst (ShaderProgram_ctor example_platform "shader.vert" "shader.frag")) /\
   In (glCreateShader GL_VERTEX_SHADER)
      (fst (ShaderProgram_ctor example_platform "shader.vert" "shader.frag")) /\
   snd (ShaderProgram_ctor example_platform "shader.vert" "shader.frag")
     = Returned 3) /\
  (compile_status (vertex_driver example_platform) <> 0 /\
   compile_status (fragment_driver example_platform) <> 0) /\
  filter is_release
    (fst (ShaderProgram_ctor example_platform "shader.vert" "shader.frag"))
  = [glDeleteShader 2; glDeleteShader 1].
Proof.
  assert (H1 : In glCreateProgram
                 (fst (ShaderProgram_ctor example_platform
                         "shader.vert" "shader.frag")))
    by (vm_compute; tauto).
  assert (H2 : In (glCreateShader GL_VERTEX_SHADER)
                 (fst (ShaderProgram_ctor example_platform
                         "shader.vert" "shader.frag")))
    by (vm_compute; tauto).
  assert (H3 : snd (ShaderProgram_ctor example_platform
                      "shader.vert" "shader.frag") = Returned 3)
    by reflexivity.
  split; [auto|].
  destruct (ShaderProgram_ctor_order example_platform
              "shader.vert" "shader.frag") as (A & B & C).
  destruct (A H1) as (_ & _ & A3 & A4). destruct (C 3 H3) as (_ & _ & C3).
  split; [auto|]. exact C3.
Defined.

Lemma filter_release_in_loop (l : list Call) :
  filter is_release (map in_loop l) = [].
Proof. induction l; simpl; auto. Qed.

Lemma filter_in_loop_none (p : Platform) (l : list PlatformCall) :
  filter is_in_loop l = [] -> Forall (draws_main_scene p) l.
Proof.
  induction l as [|c l IH]; intros H; constructor.
  - destruct c; try exact I. discriminate.
  - apply IH. destruct c; simpl in H; auto; discriminate.
Qed.

Lemma main_when_ok (p : Platform) :
  startup_ok p = true ->
  exists startup : list PlatformCall,
    filter is_in_loop startup = [] /\
    filter is_release startup = shader_deletes p /\
    filter is_acquire startup
    = [ SDL_Init;
        SDL_CreateWindow "OpenGL Sandbox" 640 640
          (Z.lor SDL_WINDOW_OPENGL SDL_WINDOW_ALLOW_HIGHDPI);
        SDL_GL_CreateContext (created_window p);
        glCreateShader GL_VERTEX_SHADER; glCreateShader GL_FRAGMENT_SHADER;
        glCreateProgram; glGenBuffers; glGenVertexArrays ] /\
    main p
    = let r := GameLoop (counter_frequency p) (first_tick p) (frame_script p)
                        (scene_of_main p) in
      match outcome r with
      | Exited =>
          (startup ++ map in_loop (concat (iterations r)) ++ shutdown_calls p,
           Returned 0)
      | StillRunning =>
          (startup ++ map in_loop (concat (iterations r)), InLoop)
      end.
Proof.
  unfold startup_ok. rewrite !andb_true_iff, !negb_true_iff.
  intros (((((((H1 & H2) & H3) & H4) & H5) & H6) & H7) & H8).
  apply Z.leb_le in H1.
  assert (H1' : (sdl_init_result p <? 0) = false) by (apply Z.ltb_ge; lia).
  unfold shader_deletes, shutdown_calls, scene_of_main. unfold_startup.
  rewrite H1', H2, H3, H6, H7, H8.
  destruct (file_contents p (base_path p +++ "shader.vert")) as [vsrc|];
    [|discriminate].
  destruct (file_contents p (base_path p +++ "shader.frag")) as [fsrc|];
    [|discriminate].
  cbn. split_ifs.
  all: eexists; (split; [|split; [|split]]);
    [ | | | match goal with
            | |- (?t, _) = (?s ++ ?X ++ _, _) =>
                let pre := prefix_of t X in unify s pre; reflexivity
            | |- (?t, _) = (?s ++ ?X, _) =>
                let pre := prefix_of t X in unify s pre; reflexivity
            end ];
    reflexivity.
Qed.

Lemma main_when_failed (p : Platform) :
  startup_ok p = false ->
  exists message : String.string,
    snd (main p) = Thrown message /\
    filter is_in_loop (fst (main p)) = [] /\
    filter is_release (fst (main p)) = [] /\
    last (fst (main p)) SDL_Init
    = (if sdl_init_result p <? 0 then cerr_write message
       else SDL_ShowSimpleMessageBox "OpenGL Sandbox" message) /\
    In (cerr_write message) (fst (main p)).
Proof.
  intros H. unfold startup_ok in H. unfold_startup. cbn. split_ifs.
  all: try (eexists; repeat split; try reflexivity; cbn; tauto).
  all: exfalso; unfold GL_VERTEX_SHADER, GL_FRAGMENT_SHADER in *;
    repeat match goal with
    | E : (_ =? _) = _ |- _ => rewrite E in H
    | E : file_contents _ _ = _ |- _ => rewrite E in H
    | E : (?a <? 0) = false |- _ =>
        apply Z.ltb_ge in E; apply Z.leb_le in E; rewrite E in H
    end; discriminate.
Qed.

(** X14. [main] returns only with the value 0, and only when every start-up step
    succeeded (whether or not the swap interval could be set) and the loop
    exited. Its calls are then those of start-up, the [Update] and [Draw] calls
    of the loop, which all come after start-up, and the releases: what start-up
    acquired is released once each, in the reverse order of acquisition, the
    two shader objects apart, which were deleted during start-up. *)
Theorem main_returns (p : Platform) (code : Z) :
  snd (main p) = Returned code ->
  code = 0 /\ startup_ok p = true /\
  outcome (GameLoop (counter_frequency p) (first_tick p) (frame_script p)
                    (scene_of_main p)) = Exited /\
  exists startup : list PlatformCall,
    fst (main p)
    = startup
      ++ map in_loop
           (concat (iterations (GameLoop (counter_frequency p) (first_tick p)
                                         (frame_script p) (scene_of_main p))))
      ++ shutdown_calls p /\
    filter is_in_loop startup = [] /\
    filter is_release startup = shader_deletes p /\
    filter is_acquire startup
    = [ SDL_Init;
        SDL_CreateWindow "OpenGL Sandbox" 640 640
          (Z.lor SDL_WINDOW_OPENGL SDL_WINDOW_ALLOW_HIGHDPI);
        SDL_GL_CreateContext (created_window p);
        glCreateShader GL_VERTEX_SHADER; glCreateShader GL_FRAGMENT_SHADER;
        glCreateProgram; glGenBuffers; glGenVertexArrays ] /\
    filter is_release (fst (main p)) = shader_deletes p ++ shutdown_calls p.
Proof.
  intros Hret. destruct (startup_ok p) eqn:Hok.
  - destruct (main_when_ok p Hok) as (startup & S1 & S2 & S3 & Emain).
    cbv zeta in Emain.
    destruct (outcome (GameLoop (counter_frequency p) (first_tick p)
                                (frame_script p) (scene_of_main p))) eqn:Hout.
    + rewrite Emain in *. cbn [fst snd] in *. injection Hret as <-.
      repeat split; auto. exists startup. repeat split; auto.
      rewrite !filter_app, S2, filter_release_in_loop. reflexivity.
    + rewrite Emain in Hret. discriminate.
  - destruct (main_when_failed p Hok) as (message & Hs & _).
    rewrite Hs in Hret. discriminate.
Qed.

Lemma main_returns_witness :
  snd (main example_platform) = Returned 0 /\
  startup_ok example_platform = true /\
  filter is_release (fst (main example_platform))
  = [ glDeleteShader 2; glDeleteShader 1;
      glDeleteVertexArrays 1; glDeleteBuffers 1; glDeleteProgram 3;
      SDL_GL_DeleteContext 1; SDL_DestroyWindow 1; SDL_Quit ].
Proof.
  assert (H : snd (main example_platform) = Returned 0)
    by (vm_compute; reflexivity).
  split; [exact H|].
  destruct (main_returns example_platform 0 H)
    as (_ & Hok & _ & startup & _ & _ & _ & _ & Hrel).
  split; [exact Hok|exact Hrel].
Defined.



(** X16. Whatever the platform answers, every [Draw] that [main] makes draws the
    scene built at start-up with only the angle changed: the linked program,
    the vertex array generated, 4 vertices, the location of the angle uniform,
    and an angle that is at least 0 and below [2 * M_PI]. *)
Theorem main_draws_its_scene (p : Platform) :
  Forall (draws_main_scene p) (fst (main p)).
Proof.
  destruct (startup_ok p) eqn:Hok.
  - destruct (main_when_ok p Hok) as (startup & S1 & _ & _ & Emain).
    cbv zeta in Emain.
    assert (Hloop : Forall (draws_main_scene p)
              (map in_loop
                 (concat (iterations
                    (GameLoop (counter_frequency p) (first_tick p)
                              (frame_script p) (scene_of_main p)))))).
    { apply Forall_map. apply Forall_concat. unfold GameLoop.
      apply loop_from_draws; auto. cbn [scene_of scene_of_main angle].
      apply good32_of_range; reflexivity. }
    destruct (outcome (GameLoop (counter_frequency p) (first_tick p)
                                (frame_script p) (scene_of_main p)));
      rewrite Emain; cbn [fst]; rewrite ?Forall_app; repeat split; auto;
      apply filter_in_loop_none; auto.
  - destruct (main_when_failed p Hok) as (message & _ & Hno & _).
    apply filter_in_loop_none, Hno.
Qed.

Close Scope string_scope.
